(** * containr: the resolution engine of [Container.ts]

    A shallow embedding of the dependency-injection container
    ([ConfiguredDependency], [ArrayDependency], [createAutoWireFactory],
    [ServiceContainer], [ServiceCollection]) together with the properties
    of its natural-language specification.

    The TypeScript code works on shared mutable objects: the
    [Record<string, IConfiguredDependency>] held by a collection is handed
    to the container it builds, an [ArrayDependency] hands its array to its
    clone, and resolution writes the cache into the record it finds.  The
    embedding therefore keeps an explicit store ([world]) of records, arrays
    and key/record objects addressed by locations, and every method is a
    computation in a state-and-exception monad over that store. *)

From Stdlib Require Import ZArith.
From stdpp Require Import gmap strings list fin_maps pretty.

Open Scope string_scope.
Set Warnings "-register-all".

(** ** Values, errors and user code *)

(** Locations in the store. *)
Abbreviation loc := nat (only parsing).

(** A thrown JavaScript error. [Error] is what [throw new Error(msg)]
    raises; [TypeError] is what the runtime raises on a call of a missing
    method. *)
Inductive error :=
| Error (message : string)
| TypeError (message : string).

(** [IDependencyMetadata]; a constructor parameter has no property key. *)
Record IDependencyMetadata := {
  dependencyKey : string;
  parameterIndex : nat;
  propertyKey : option string
}.

(** [Newable<T>]: a class.  The injection metadata that [Reflect] keeps for
    the constructor is carried with it; [body] is what the constructor body
    does ([Some e]: it throws [e]); [disposable] tells whether instances
    expose a [dispose()] method. *)
Record Newable := {
  cname : string;
  metadata : list IDependencyMetadata;
  body : option error;
  disposable : bool
}.

(** Run-time values.  An instance carries the identity it was allocated
    with, its class and the positional arguments it was constructed
    from. *)
Inductive val :=
| VUndefined
| VNull
| VBool (b : bool)
| VNumber (z : Z)
| VString (s : string)
| VInstance (id : nat) (c : Newable) (args : list val)
| VArray (elems : list val).

(** What a user-written delegate does when it is called. *)
Inductive delegate_body :=
| Returns (v : val)
| Creates (c : Newable) (args : list val)
| Throws (e : error).

(** [ValueFactoryDelegate<T>].  [Constant v] is the closure [() => value]
    that the [ConfiguredDependency] constructor wraps around a plain value,
    [Delegate] a named user function, [AutoWire c] the closure returned by
    [createAutoWireFactory(c)]. *)
Inductive ValueFactoryDelegate :=
| Constant (v : val)
| Delegate (name : string) (b : delegate_body)
| AutoWire (c : Newable).

(** The argument [T | ValueFactoryDelegate<T>] of [register] and of the
    [ConfiguredDependency] constructor, told apart by [typeof]. *)
Inductive registrand :=
| Plain (v : val)
| Factory (f : ValueFactoryDelegate).

(** The two classes that implement [IConfiguredDependency] and are stored
    in a key/record object.  The array of an [ArrayDependency] is an object
    of its own, held by reference. *)
Inductive IConfiguredDependency :=
| ConfiguredDependency (key : string) (factory : ValueFactoryDelegate) (value : val)
| ArrayDependency (key : string) (resolved : bool) (values : loc).

(** [ServiceContainer]: all three fields are assigned once. *)
Inductive ServiceContainer :=
| Container (values : loc) (parent : option ServiceContainer) (provenance : option string).

Definition container_values (c : ServiceContainer) : loc :=
  match c with Container v _ _ => v end.

Definition container_parent (c : ServiceContainer) : option ServiceContainer :=
  match c with Container _ p _ => p end.

(** [ServiceCollection]: its single field [values] is reassigned by
    [import], so the methods return the collection they leave behind. *)
Record ServiceCollection := { collection_values : loc }.

(** What the outside world can observe of a run. *)
Inductive event :=
| Invoked (name : string)
| Constructed (c : string) (id : nat)
| Disposed (id : nat)
| Logged (keys : list string).

(** ** The store *)

Record world := {
  records : gmap loc IConfiguredDependency;
  arrays : gmap loc (list loc);
  objects : gmap loc (gmap string loc);
  next : nat;
  trace : list event
}.

Definition empty_world : world :=
  {| records := ∅; arrays := ∅; objects := ∅; next := 0; trace := [] |}.

Definition with_records (f : gmap loc IConfiguredDependency → gmap loc IConfiguredDependency)
    (w : world) : world :=
  {| records := f (records w); arrays := arrays w; objects := objects w;
     next := next w; trace := trace w |}.

Definition with_arrays (f : gmap loc (list loc) → gmap loc (list loc)) (w : world) : world :=
  {| records := records w; arrays := f (arrays w); objects := objects w;
     next := next w; trace := trace w |}.

Definition with_objects (f : gmap loc (gmap string loc) → gmap loc (gmap string loc))
    (w : world) : world :=
  {| records := records w; arrays := arrays w; objects := f (objects w);
     next := next w; trace := trace w |}.

Definition bump (w : world) : world :=
  {| records := records w; arrays := arrays w; objects := objects w;
     next := S (next w); trace := trace w |}.

Definition emit_event (e : event) (w : world) : world :=
  {| records := records w; arrays := arrays w; objects := objects w;
     next := next w; trace := trace w ++ [e] |}.

(** ** The monad: a store threaded through, and exceptions that keep the
    store they were raised in.  [OutOfFuel] is the third outcome of the
    recursive resolution functions below. *)

Inductive outcome (A : Type) :=
| Ret (a : A)
| Throw (e : error)
| OutOfFuel.
Arguments Ret {A} a.
Arguments Throw {A} e.
Arguments OutOfFuel {A}.

Definition M (A : Type) : Type := world → outcome A * world.

Definition ret {A} (a : A) : M A := λ w, (Ret a, w).
Definition throw {A} (e : error) : M A := λ w, (Throw e, w).
Definition out_of_fuel {A} : M A := λ w, (OutOfFuel, w).

Definition bind {A B} (m : M A) (k : A → M B) : M B := λ w,
  match m w with
  | (Ret a, w') => k a w'
  | (Throw e, w') => (Throw e, w')
  | (OutOfFuel, w') => (OutOfFuel, w')
  end.

Notation "'let!' x ':=' m 'in' k" := (bind m (λ x, k))
  (at level 10, x name, m at level 100, k at level 200, only parsing).
Notation "m1 '>>' m2" := (bind m1 (λ _, m2))
  (at level 100, m2 at level 200, right associativity, only parsing).

(** [try { m } finally { h }] *)
Definition try_finally {A} (m : M A) (h : M unit) : M A := λ w,
  let '(o, w1) := m w in
  match h w1 with
  | (Ret _, w2) => (o, w2)
  | (Throw e, w2) => (Throw e, w2)
  | (OutOfFuel, w2) => (OutOfFuel, w2)
  end.

(** [xs.map(f)] and [xs.forEach(f)] with an effectful callback: the first
    exception leaves the loop. *)
Fixpoint mapM {A B} (f : A → M B) (xs : list A) : M (list B) :=
  match xs with
  | [] => ret []
  | x :: xs' =>
      let! y := f x in
      let! ys := mapM f xs' in
      ret (y :: ys)
  end.

Fixpoint forEach {A} (f : A → M unit) (xs : list A) : M unit :=
  match xs with
  | [] => ret tt
  | x :: xs' => f x >> forEach f xs'
  end.

(** Store primitives.  A location that holds nothing cannot arise from the
    methods below; reading one raises a [TypeError], as a property read on
    [undefined] does. *)
Definition dangling : error := TypeError "Cannot read properties of undefined".

Definition emit (e : event) : M unit := λ w, (Ret tt, emit_event e w).

Definition read_record (r : loc) : M IConfiguredDependency := λ w,
  match records w !! r with
  | Some d => (Ret d, w)
  | None => (Throw dangling, w)
  end.

Definition write_record (r : loc) (d : IConfiguredDependency) : M unit := λ w,
  (Ret tt, with_records (insert r d) w).

Definition new_record (d : IConfiguredDependency) : M loc := λ w,
  (Ret (next w), bump (with_records (insert (next w) d) w)).

Definition read_array (a : loc) : M (list loc) := λ w,
  match arrays w !! a with
  | Some xs => (Ret xs, w)
  | None => (Throw dangling, w)
  end.

Definition write_array (a : loc) (xs : list loc) : M unit := λ w,
  (Ret tt, with_arrays (insert a xs) w).

Definition new_array (xs : list loc) : M loc := λ w,
  (Ret (next w), bump (with_arrays (insert (next w) xs) w)).

Definition read_object (o : loc) : M (gmap string loc) := λ w,
  match objects w !! o with
  | Some m => (Ret m, w)
  | None => (Throw dangling, w)
  end.

Definition write_object (o : loc) (m : gmap string loc) : M unit := λ w,
  (Ret tt, with_objects (insert o m) w).

Definition new_object (m : gmap string loc) : M loc := λ w,
  (Ret (next w), bump (with_objects (insert (next w) m) w)).

(** [Object.entries(o)] and [Object.keys(o)].  The order is the one of
    [map_to_list]; no property below depends on it.  A key/record object is
    modelled by its own properties: [o[key]] for a key that names a member
    of [Object.prototype] is not modelled. *)
Definition entries (m : gmap string loc) : list (string * loc) := map_to_list m.
Definition keys_of (m : gmap string loc) : list string := (entries m).*1.

(** ** ConfiguredDependency *)

(** The constructor: a function is kept as the factory; anything else is
    wrapped in a constant closure and is the cached value at once. *)
Definition newConfiguredDependency (key : string) (value : registrand) : IConfiguredDependency :=
  match value with
  | Factory f => ConfiguredDependency key f VUndefined
  | Plain v => ConfiguredDependency key (Constant v) v
  end.

Definition is_undefined (v : val) : bool :=
  match v with VUndefined => true | _ => false end.

(** JavaScript truthiness, as used by [if (dependency && dependency.value)]. *)
Definition truthy (v : val) : bool :=
  match v with
  | VUndefined | VNull => false
  | VBool b => b
  | VNumber z => negb (z =? 0)%Z
  | VString s => negb (String.eqb s "")
  | VInstance _ _ _ | VArray _ => true
  end.

(** [isResolved()] of either class. *)
Definition isResolved (d : IConfiguredDependency) : bool :=
  match d with
  | ConfiguredDependency _ _ value => negb (is_undefined value)
  | ArrayDependency _ resolved _ => resolved
  end.

(** [replaceValue(value)] *)
Definition replaceValue (d : IConfiguredDependency) (value : registrand) : IConfiguredDependency :=
  match d with
  | ConfiguredDependency key factory old =>
      match value with
      | Factory f => ConfiguredDependency key f old
      | Plain v => ConfiguredDependency key (Constant v) v
      end
  | ArrayDependency _ _ _ => d
  end.

(** [clone()] of either class: a new record object.  The single record is
    rebuilt from its factory; the array record is rebuilt around the very
    array [this.values] of the original. *)
Definition clone (this : loc) : M loc :=
  let! d := read_record this in
  match d with
  | ConfiguredDependency key factory _ =>
      new_record (newConfiguredDependency key (Factory factory))
  | ArrayDependency key _ values =>
      new_record (ArrayDependency key false values)
  end.

(** ** Injection metadata and construction *)

Definition getDependencyMetadata (constructor : Newable) : list IDependencyMetadata :=
  metadata constructor.

(** [inject(dependencyKey)(target, propertyKey, parameterIndex)]: push one
    entry onto the metadata of the target. *)
Definition inject (dependencyKey : string) (target : Newable) (propertyKey : option string)
    (parameterIndex : nat) : Newable :=
  {| cname := cname target;
     metadata := getDependencyMetadata target ++
       [{| dependencyKey := dependencyKey; parameterIndex := parameterIndex;
           propertyKey := propertyKey |}];
     body := body target;
     disposable := disposable target |}.

(** [new constructor(...params)] *)
Definition construct (constructor : Newable) (params : list val) : M val :=
  match body constructor with
  | Some e => throw e
  | None => λ w,
      (Ret (VInstance (next w) constructor params),
       emit_event (Constructed (cname constructor) (next w)) (bump w))
  end.

(** [this.value = v] on the record at [this] *)
Definition set_value (this : loc) (v : val) : M unit :=
  let! d := read_record this in
  match d with
  | ConfiguredDependency key factory _ => write_record this (ConfiguredDependency key factory v)
  | ArrayDependency _ _ _ => ret tt
  end.

(** [this.resolved = true] on the record at [this] *)
Definition set_resolved (this : loc) : M unit :=
  let! d := read_record this in
  match d with
  | ArrayDependency key _ values => write_record this (ArrayDependency key true values)
  | ConfiguredDependency _ _ _ => ret tt
  end.

(** [UnknownDependency.resolveValue] *)
Definition UnknownDependency_resolveValue (key : string) (values : gmap string loc) : M val :=
  emit (Logged (keys_of values)) >>
  throw (Error ("Unrecognized service: " ++ key)).

(** ** Resolution

    [_getService], the two [resolveValue] methods and the call of a factory
    call one another; a cycle of injected constructor parameters makes the
    TypeScript code recurse without end, so the three functions take fuel
    and each call spends one unit. *)
Fixpoint _getService (fuel : nat) (this : ServiceContainer) (key : string) {struct fuel} : M val :=
  match fuel with
  | 0 => out_of_fuel
  | S fuel =>
      let! values := read_object (container_values this) in
      match values !! key with
      | Some value => resolveValue fuel value this
      | None =>
          match container_parent this with
          | Some parent => _getService fuel parent key
          | None => UnknownDependency_resolveValue key values
          end
      end
  end
with resolveValue (fuel : nat) (this : loc) (container : ServiceContainer) {struct fuel} : M val :=
  match fuel with
  | 0 => out_of_fuel
  | S fuel =>
      let! d := read_record this in
      match d with
      | ConfiguredDependency _ factory value =>
          if is_undefined value then
            let! v := invoke fuel factory container in
            set_value this v >>
            ret v
          else ret value
      | ArrayDependency _ _ values =>
          set_resolved this >>
          let! xs := read_array values in
          let! vs := mapM (λ x, resolveValue fuel x container) xs in
          ret (VArray vs)
      end
  end
with invoke (fuel : nat) (factory : ValueFactoryDelegate) (container : ServiceContainer)
    {struct fuel} : M val :=
  match fuel with
  | 0 => out_of_fuel
  | S fuel =>
      match factory with
      | Constant v => ret v
      | Delegate name b =>
          emit (Invoked name) >>
          match b with
          | Returns v => ret v
          | Creates c args => construct c args
          | Throws e => throw e
          end
      | AutoWire constructor =>
          let metadata := getDependencyMetadata constructor in
          if (length metadata =? 0)%nat then construct constructor []
          else
            let paramTypes := rev metadata in
            let! params :=
              mapM (λ m, _getService fuel container (dependencyKey m)) paramTypes in
            construct constructor params
      end
  end.

(** [createAutoWireFactory(constructor)] *)
Definition createAutoWireFactory (constructor : Newable) : ValueFactoryDelegate :=
  AutoWire constructor.

(** ** ServiceContainer *)

(** [resolve(clazz)] *)
Definition resolve (fuel : nat) (this : ServiceContainer) (clazz : Newable) : M val :=
  invoke fuel (createAutoWireFactory clazz) this.

(** The argument [string | string[]] of [get]. *)
Inductive get_keys :=
| Key (key : string)
| Keys (keys : list string).

(** [get(keys)]: the single-key form, or the batch form for 2 to 10 keys. *)
Definition get (fuel : nat) (this : ServiceContainer) (keys : get_keys) : M val :=
  match keys with
  | Key key => _getService fuel this key
  | Keys ks =>
      if ((2 <=? length ks) && (length ks <=? 10))%nat then
        let! vs := mapM (_getService fuel this) ks in
        ret (VArray vs)
      else throw (Error "Unsupported overload")
  end.

(** [if (typeof value.dispose === 'function') value.dispose()] *)
Definition call_dispose (value : val) : M unit :=
  match value with
  | VInstance id c _ => if disposable c then emit (Disposed id) else ret tt
  | _ => ret tt
  end.

(** [destroy(key)].  The record is read as a [ConfiguredDependency]; an
    [ArrayDependency] has no [value] field, so the test on it fails. *)
Definition destroy (this : ServiceContainer) (key : string) : M unit :=
  let! values := read_object (container_values this) in
  match values !! key with
  | None => ret tt
  | Some r =>
      let! dependency := read_record r in
      match dependency with
      | ConfiguredDependency _ _ value =>
          if truthy value then
            call_dispose value >>
            set_value r VUndefined
          else ret tt
      | ArrayDependency _ _ _ => ret tt
      end
  end.

(** The keys of the entries whose record satisfies [p] in the store. *)
Definition keys_where (p : IConfiguredDependency → bool) (values : gmap string loc) : M (list string) :=
  let! kept :=
    mapM (λ e : string * loc,
            let! d := read_record e.2 in
            ret (if p d then [e.1] else []))
         (entries values) in
  ret (concat kept).

(** The callback of [keys.forEach] in [createChildContainer]:
    [values[key] = this.values[key].clone()] *)
Definition clone_entry (this : ServiceContainer) (values : loc) (key : string) : M unit :=
  let! mine := read_object (container_values this) in
  match mine !! key with
  | Some r =>
      let! c := clone r in
      let! m := read_object values in
      write_object values (<[key := c]> m)
  | None => throw dangling
  end.

(** [createChildContainer(provenance)] *)
Definition createChildContainer (this : ServiceContainer) (provenance : string) : M ServiceContainer :=
  let! values := new_object ∅ in
  let! mine := read_object (container_values this) in
  let! keys := keys_where (λ d, negb (isResolved d)) mine in
  forEach (clone_entry this values) keys >>
  ret (Container values (Some this) (Some provenance)).

(** [dispose()] *)
Definition dispose (this : ServiceContainer) : M unit :=
  let! mine := read_object (container_values this) in
  let! keys := keys_where isResolved mine in
  forEach (destroy this) keys.

(** ** ArrayDependency: appending entries *)

(** The key [`${this.key}-${this.values.length}`] of a new entry. *)
Definition entry_key (key : string) (n : nat) : string :=
  key ++ "-" ++ pretty n.

(** [register(value)]; called on anything but an [ArrayDependency] the
    method does not exist. *)
Definition ArrayDependency_register (this : loc) (value : registrand) : M unit :=
  let! d := read_record this in
  match d with
  | ArrayDependency key _ values =>
      let! xs := read_array values in
      let! r := new_record (newConfiguredDependency (entry_key key (length xs)) value) in
      write_array values (xs ++ [r])
  | ConfiguredDependency _ _ _ => throw (TypeError "dependency.register is not a function")
  end.

(** [push(clazz)] *)
Definition ArrayDependency_push (this : loc) (clazz : Newable) : M unit :=
  let! d := read_record this in
  match d with
  | ArrayDependency key _ values =>
      let! xs := read_array values in
      let! r := new_record (newConfiguredDependency (entry_key key (length xs))
                              (Factory (createAutoWireFactory clazz))) in
      write_array values (xs ++ [r])
  | ConfiguredDependency _ _ _ => throw (TypeError "dependency.push is not a function")
  end.

(** ** ServiceCollection *)

(** [new ServiceCollection()] *)
Definition newServiceCollection : M ServiceCollection :=
  let! values := new_object ∅ in
  ret {| collection_values := values |}.

(** [this.values[key] = r] *)
Definition set_entry (this : ServiceCollection) (key : string) (r : loc) : M unit :=
  let! m := read_object (collection_values this) in
  write_object (collection_values this) (<[key := r]> m).

(** [register(key, value)] *)
Definition register (this : ServiceCollection) (key : string) (value : registrand) :
    M ServiceCollection :=
  let! r := new_record (newConfiguredDependency key value) in
  set_entry this key r >>
  ret this.

(** The common opening of [add] and [addDependency]: the record under
    [key], or a new empty [ArrayDependency] stored under it. *)
Definition array_entry (this : ServiceCollection) (key : string) : M loc :=
  let! m := read_object (collection_values this) in
  match m !! key with
  | Some dependency => ret dependency
  | None =>
      let! values := new_array [] in
      let! dependency := new_record (ArrayDependency key false values) in
      set_entry this key dependency >>
      ret dependency
  end.

(** [add(key, clazz)] *)
Definition add (this : ServiceCollection) (key : string) (clazz : Newable) : M ServiceCollection :=
  let! dependency := array_entry this key in
  ArrayDependency_push dependency clazz >>
  ret this.

(** [addDependency(key, value)] *)
Definition addDependency (this : ServiceCollection) (key : string) (value : registrand) :
    M ServiceCollection :=
  let! dependency := array_entry this key in
  ArrayDependency_register dependency value >>
  ret this.

(** [use(key, clazz)] *)
Definition use (this : ServiceCollection) (key : string) (clazz : Newable) : M ServiceCollection :=
  register this key (Factory (createAutoWireFactory clazz)).


(** [buildContainer()]: the container is built around [this.values]. *)
Definition buildContainer (this : ServiceCollection) : ServiceContainer :=
  Container (collection_values this) None None.

(** [isRegistered(key)] *)
Definition isRegistered (this : ServiceCollection) (key : string) : M bool :=
  let! m := read_object (collection_values this) in
  ret (bool_decide (is_Some (m !! key))).

(** [import(collection)]: [{ ...this.values, ...collection.values }] is a
    new object in which the entries of [collection] come last. *)
Definition import (this collection : ServiceCollection) : M ServiceCollection :=
  let! mine := read_object (collection_values this) in
  let! theirs := read_object (collection_values collection) in
  let! values := new_object (theirs ∪ mine) in
  ret {| collection_values := values |}.

(** [IServiceRegistry.configureServices], returning the collection it
    leaves behind. *)
Definition IServiceRegistry := ServiceCollection → M ServiceCollection.

(** [importRegistry(registry)] *)
Definition importRegistry (this : ServiceCollection) (registry : IServiceRegistry) :
    M ServiceCollection :=
  registry this.

(** [include(registry)] *)
Definition include (this : ServiceCollection) (registry : IServiceRegistry) : M ServiceCollection :=
  let! services := newServiceCollection in
  let! services := registry services in
  import this services.

(** [ServiceCollection.resolve(key)] *)
Definition ServiceCollection_resolve (fuel : nat) (this : ServiceCollection) (key : string) : M val :=
  let container := buildContainer this in
  try_finally (get fuel container (Key key)) (dispose container).

(** ** Observations on a run *)

Definition is_invoked (name : string) (e : event) : bool :=
  match e with Invoked n => String.eqb n name | _ => false end.

Definition is_constructed (c : string) (e : event) : bool :=
  match e with Constructed n _ => String.eqb n c | _ => false end.

Definition is_disposed (id : nat) (e : event) : bool :=
  match e with Disposed n => Nat.eqb n id | _ => false end.

(** How often the delegate [name] was called, the class [c] instantiated,
    the [dispose()] hook of instance [id] run. *)
Definition invocations (name : string) (w : world) : nat :=
  length (List.filter (is_invoked name) (trace w)).

Definition constructions (c : string) (w : world) : nat :=
  length (List.filter (is_constructed c) (trace w)).

Definition disposals (id : nat) (w : world) : nat :=
  length (List.filter (is_disposed id) (trace w)).

(** ** Relations between stores *)

(** Every location in use lies below the allocation counter. *)
Definition allocated (w : world) : Prop :=
  map_Forall (λ l _, (l < next w)%nat) (records w) ∧
  map_Forall (λ l _, (l < next w)%nat) (arrays w) ∧
  map_Forall (λ l _, (l < next w)%nat) (objects w).

(** What resolution never changes in a record: its class, its key, its
    factory, the array it holds. *)
Definition shape (d : IConfiguredDependency) : string * option ValueFactoryDelegate * option loc :=
  match d with
  | ConfiguredDependency key factory _ => (key, Some factory, None)
  | ArrayDependency key _ values => (key, None, Some values)
  end.

(** [frame w w']: [w'] may differ from [w] in cached values, resolved
    flags, the allocation counter and a longer trace, and in nothing
    else. *)
Record frame (w w' : world) : Prop := {
  frame_objects : objects w' = objects w;
  frame_arrays : arrays w' = arrays w;
  frame_shape : ∀ r, shape <$> records w' !! r = shape <$> records w !! r;
  frame_next : (next w ≤ next w')%nat;
  frame_trace : trace w `prefix_of` trace w'
}.

(** [stable m m']: every run of [m] that does not run out of fuel is a run
    of [m']. *)
Definition stable {A} (m m' : M A) : Prop :=
  ∀ w o w', m w = (o, w') → o ≠ OutOfFuel → m' w = (o, w').

(** A computation all of whose runs are related by [R]. *)
Definition preserves (R : relation world) {A} (m : M A) : Prop :=
  ∀ w o w', m w = (o, w') → R w w'.

(** * Stores, scenarios and specification-side definitions

    The concrete stores and runs on which the properties below are
    exercised, and the definitions that the statements need. *)

(** ** Lookup by key *)


(** The number of containers above [c]. *)
Fixpoint depth (c : ServiceContainer) : nat :=
  match c with
  | Container _ (Some p) _ => S (depth p)
  | Container _ None _ => 0
  end.

(** [K] is bound nowhere from [c] up to the root. *)
Fixpoint unbound (w : world) (K : string) (c : ServiceContainer) : Prop :=
  match c with
  | Container values p _ =>
      (∃ m, objects w !! values = Some m ∧ m !! K = None) ∧
      match p with
      | Some p => unbound w K p
      | None => True
      end
  end.

(** ** Merging collections *)


(** ** Registration *)

(** The store after an entry built from [d] was appended to the array [a],
    which held [xs]. *)
Definition appended (a : loc) (xs : list loc) (d : IConfiguredDependency) (w : world) : world :=
  with_arrays (insert a (xs ++ [next w])%list) (bump (with_records (insert (next w) d) w)).

(** The store after an empty [ArrayDependency] was created under [K]. *)
Definition with_array_entry (this : ServiceCollection) (K : string) (m : gmap string loc)
    (w : world) : world :=
  with_objects (insert (collection_values this) (<[K := S (next w)]> m))
    (bump (with_records (insert (S (next w)) (ArrayDependency K false (next w)))
       (bump (with_arrays (insert (next w) []) w)))).

(** The store after [register(K, value)] on a collection whose mapping
    was [m]. *)
Definition registered (this : ServiceCollection) (K : string) (value : registrand)
    (m : gmap string loc) (w : world) : world :=
  with_objects (insert (collection_values this) (<[K := next w]> m))
    (bump (with_records (insert (next w) (newConfiguredDependency K value)) w)).

(** A collection at location 0 whose mapping binds ["two"] to a
    multi-binding record holding one entry. *)
Definition one_array_world : world :=
  {| records := {[ 2 := ArrayDependency "two" false 1;
                   3 := newConfiguredDependency "two-0" (Plain (VString "policyA")) ]};
     arrays := {[ 1 := [3] ]};
     objects := {[ 0 := {[ "two" := 2 ]} ]};
     next := 4;
     trace := [] |}.

(** ** Resolve-once caching *)

(** [N] calls of [get(K)] in a row on the same container. *)
Fixpoint get_times (N : nat) (fuel : nat) (this : ServiceContainer) (K : string) : M (list val) :=
  match N with
  | 0 => ret []
  | S N =>
      let! v := get fuel this (Key K) in
      let! vs := get_times N fuel this K in
      ret (v :: vs)
  end.

(** The class of the test suite, and a delegate that instantiates it. *)
Definition SampleService : Newable :=
  {| cname := "SampleService"; metadata := []; body := None; disposable := false |}.

Definition sample_factory : ValueFactoryDelegate :=
  Delegate "sample" (Creates SampleService [VString "1234"]).

(** A container mapping at location 0 that binds ["sample"] to an
    unresolved record with [sample_factory]. *)
Definition sample_world : world :=
  {| records := {[ 1 := newConfiguredDependency "sample" (Factory sample_factory) ]};
     arrays := ∅;
     objects := {[ 0 := {[ "sample" := 1 ]} ]};
     next := 2;
     trace := [] |}.

(** A factory that returns [undefined]: what it returns cannot be told
    from an empty cache. *)
Definition undefined_factory : ValueFactoryDelegate :=
  Delegate "nothing" (Returns VUndefined).

Definition undefined_world : world :=
  {| records := {[ 1 := newConfiguredDependency "k" (Factory undefined_factory) ]};
     arrays := ∅;
     objects := {[ 0 := {[ "k" := 1 ]} ]};
     next := 2;
     trace := [] |}.

(** ** Auto-wiring *)

(** The order the specification asks for: the entries sorted by parameter
    index (an insertion sort). *)
Fixpoint insert_by_index (m : IDependencyMetadata) (xs : list IDependencyMetadata) :
    list IDependencyMetadata :=
  match xs with
  | [] => [m]
  | x :: xs' =>
      if (parameterIndex m <? parameterIndex x)%nat then m :: x :: xs'
      else x :: insert_by_index m xs'
  end.

Fixpoint spec_parameter_order (metadata : list IDependencyMetadata) : list IDependencyMetadata :=
  match metadata with
  | [] => []
  | m :: rest => insert_by_index m (spec_parameter_order rest)
  end.

(** The entries were recorded for the parameters [n-1], ..., [1], [0], in
    that order: what the comment in [createAutoWireFactory] relies on. *)
Definition recorded_descending (metadata : list IDependencyMetadata) : Prop :=
  map parameterIndex metadata = rev (seq 0 (length metadata)).

(** The parameter decorators of a constructor whose parameters, from
    position [i] on, are marked with [keys]: TypeScript applies them from
    the last parameter to the first. *)
Fixpoint decorate (i : nat) (keys : list string) (target : Newable) : Newable :=
  match keys with
  | [] => target
  | k :: ks => inject k (decorate (S i) ks target) None i
  end.

(** [in_turn f xs w ys w']: calling [f] on the elements of [xs] one after
    the other, from the store [w], returns the elements of [ys] and ends
    in [w']. *)
Inductive in_turn {A B} (f : A → M B) : list A → world → list B → world → Prop :=
| in_turn_nil w : in_turn f [] w [] w
| in_turn_cons x xs y ys w w1 w2 :
    f x w = (Ret y, w1) → in_turn f xs w1 ys w2 → in_turn f (x :: xs) w (y :: ys) w2.

(** [StubActivator] of the test suite: [one] is injected at parameter 0,
    [two] at parameter 1. *)
Definition StubActivator : Newable :=
  decorate 0 ["one"; "two"]
    {| cname := "StubActivator"; metadata := []; body := None; disposable := false |}.

Definition activator_world : world :=
  {| records := {[ 1 := newConfiguredDependency "one" (Plain (VString "service"));
                   2 := newConfiguredDependency "two" (Plain (VString "policies")) ]};
     arrays := ∅;
     objects := {[ 0 := {[ "one" := 1; "two" := 2 ]} ]};
     next := 3;
     trace := [] |}.

(** A class whose only marked parameter is the second one, and a class
    whose entries were recorded by direct calls of [inject] for parameter 0
    first. *)
Definition SecondOnly : Newable :=
  inject "b" {| cname := "SecondOnly"; metadata := []; body := None; disposable := false |}
    None 1.

Definition Ascending : Newable :=
  inject "b"
    (inject "a" {| cname := "Ascending"; metadata := []; body := None; disposable := false |}
       None 0)
    None 1.

Definition ab_world : world :=
  {| records := {[ 1 := newConfiguredDependency "a" (Plain (VString "A"));
                   2 := newConfiguredDependency "b" (Plain (VString "B")) ]};
     arrays := ∅;
     objects := {[ 0 := {[ "a" := 1; "b" := 2 ]} ]};
     next := 3;
     trace := [] |}.

(** ** Forking a child container *)

(** What [clone()] builds from a record. *)
Definition clone_of (d : IConfiguredDependency) : IConfiguredDependency :=
  match d with
  | ConfiguredDependency key factory _ => ConfiguredDependency key factory VUndefined
  | ArrayDependency key _ values => ArrayDependency key false values
  end.

(** [extends lv w w']: [w'] keeps every record of [w], the arrays, the
    trace and every key/record object other than the one at [lv]. *)
Record extends (lv : loc) (w w' : world) : Prop := {
  ext_records : ∀ r, r < next w → records w' !! r = records w !! r;
  ext_arrays : arrays w' = arrays w;
  ext_objects : ∀ o, o ≠ lv → objects w' !! o = objects w !! o;
  ext_next : (next w ≤ next w')%nat;
  ext_trace : trace w' = trace w
}.

(** The store after the entry of [key], whose record is [d], was cloned
    into the mapping [mc] at [lv]. *)
Definition with_clone (lv : loc) (mc : gmap string loc) (key : string)
    (d : IConfiguredDependency) (w : world) : world :=
  with_objects (insert lv (<[key := next w]> mc))
    (bump (with_records (insert (next w) (clone_of d)) w)).



(** [add] and [addDependency] on a key that [register] bound to a single
    record. *)
Definition add_after_register : M ServiceCollection :=
  let! services := newServiceCollection in
  let! services := register services "one" (Plain (VString "service")) in
  add services "one" SampleService.

Definition addDependency_after_register : M ServiceCollection :=
  let! services := newServiceCollection in
  let! services := register services "one" (Plain (VString "service")) in
  addDependency services "one" (Plain (VString "policy")).

(** ** Building a container *)



(** ** Failed resolution, disposal and cloned multi-bindings *)

Definition failing_factory : ValueFactoryDelegate :=
  Delegate "boom" (Throws (Error "NOPE NOPE NOPE")).

(** A multi-binding key whose only entry has a factory that throws is
    resolved; the store is the one left by the failed resolution. *)
Definition resolve_failing_array : M val :=
  let! services := newServiceCollection in
  let! services := addDependency services "two" (Factory failing_factory) in
  get 5 (buildContainer services) (Key "two").

(** The same with a single record. *)
Definition resolve_failing_single : M val :=
  let! services := newServiceCollection in
  let! services := register services "one" (Factory failing_factory) in
  get 5 (buildContainer services) (Key "one").

Definition zero_factory : ValueFactoryDelegate :=
  Delegate "zero" (Returns (VNumber 0)).

(** Resolve, dispose, resolve again: a single record whose factory returns
    the number 0. *)
Definition dispose_falsy : M (val * val) :=
  let! services := newServiceCollection in
  let! services := register services "count" (Factory zero_factory) in
  let container := buildContainer services in
  let! v1 := get 5 container (Key "count") in
  dispose container >>
  let! v2 := get 5 container (Key "count") in
  ret (v1, v2).

(** A class whose instances expose [dispose()]. *)
Definition Connection : Newable :=
  {| cname := "Connection"; metadata := []; body := None; disposable := true |}.

(** Resolve, dispose, resolve again: a single record and a multi-binding
    record, both auto-wired to [Connection]. *)
Definition dispose_single : M (val * val) :=
  let! services := newServiceCollection in
  let! services := use services "db" Connection in
  let container := buildContainer services in
  let! v1 := get 5 container (Key "db") in
  dispose container >>
  let! v2 := get 5 container (Key "db") in
  ret (v1, v2).

Definition dispose_array : M (val * val) :=
  let! services := newServiceCollection in
  let! services := add services "dbs" Connection in
  let container := buildContainer services in
  let! v1 := get 5 container (Key "dbs") in
  dispose container >>
  let! v2 := get 5 container (Key "dbs") in
  ret (v1, v2).

(** A multi-binding key is registered, the container built and forked; the
    key is resolved on the child first, then on the parent. *)
Definition fork_array : M (val * val) :=
  let! services := newServiceCollection in
  let! services := addDependency services "two" (Factory sample_factory) in
  let container := buildContainer services in
  let! child := createChildContainer container "test" in
  let! in_child := get 5 child (Key "two") in
  let! in_parent := get 5 container (Key "two") in
  ret (in_child, in_parent).

(** The same with a single record: the test 'Resolving a value in the
    child container does not leak into the parent container'. *)
Definition fork_single : M (val * val) :=
  let! services := newServiceCollection in
  let! services := register services "sample" (Factory sample_factory) in
  let container := buildContainer services in
  let! child := createChildContainer container "test" in
  let! in_child := get 5 child (Key "sample") in
  let! in_parent := get 5 container (Key "sample") in
  ret (in_child, in_parent).

(** An entry is appended to the parent's multi-binding record after the
    fork, and the key is resolved on the child. *)
Definition append_after_fork : M val :=
  let! services := newServiceCollection in
  let! services := addDependency services "two" (Plain (VString "policyA")) in
  let container := buildContainer services in
  let! child := createChildContainer container "test" in
  let! services := addDependency services "two" (Plain (VString "policyB")) in
  get 5 child (Key "two").

(** * Further definitions

    Stores and notions used by the properties that go beyond the lookup,
    caching and forking statements above. *)

(** ** Batch lookup *)

(** [sample_world] with a second key bound to a plain value and ["sample"]
    resolved. *)
Definition two_resolved_world : world :=
  {| records := {[ 1 := ConfiguredDependency "sample" sample_factory
                          (VInstance 2 SampleService [VString "1234"]);
                   3 := newConfiguredDependency "mail" (Plain (VString "test@test.com")) ]};
     arrays := ∅;
     objects := {[ 0 := {[ "sample" := 1; "mail" := 3 ]} ]};
     next := 4;
     trace := [Invoked "sample"; Constructed "SampleService" 2] |}.

(** ** Disposal *)

(** What [destroy] leaves of a record: a single record with a truthy
    cached value loses it; any other record is as before. *)
Definition destroyed (d : IConfiguredDependency) : IConfiguredDependency :=
  match d with
  | ConfiguredDependency key factory value =>
      if truthy value then ConfiguredDependency key factory VUndefined else d
  | ArrayDependency _ _ _ => d
  end.

(** The calls of [dispose()] hooks that destroying a record makes. *)
Definition hook_events (d : IConfiguredDependency) : list event :=
  match d with
  | ConfiguredDependency _ _ (VInstance id c _) => if disposable c then [Disposed id] else []
  | _ => []
  end.

(** The store after the record [d] at [r] was destroyed. *)
Definition after_destroy (r : loc) (d : IConfiguredDependency) (w : world) : world :=
  {| records := <[r := destroyed d]> (records w);
     arrays := arrays w;
     objects := objects w;
     next := next w;
     trace := trace w ++ hook_events d |}.

(** [e] is the call of the hook of an instance that is the cached value of
    a record held by the mapping [m] in the store [w]. *)
Definition held_disposable (w : world) (m : gmap string loc) (e : event) : Prop :=
  ∃ id k r key f c args,
    e = Disposed id ∧ m !! k = Some r ∧
    records w !! r = Some (ConfiguredDependency key f (VInstance id c args)) ∧
    disposable c = true.

(** [cleared m w w']: [w'] differs from [w] at most in records held by [m]
    that were destroyed, and in hook calls for instances held by [m]. *)
Record cleared (m : gmap string loc) (w w' : world) : Prop := {
  cleared_objects : objects w' = objects w;
  cleared_arrays : arrays w' = arrays w;
  cleared_next : next w' = next w;
  cleared_records : ∀ r,
    records w' !! r = records w !! r ∨
    ((∃ k, m !! k = Some r) ∧ records w' !! r = destroyed <$> records w !! r);
  cleared_trace : ∃ t, trace w' = (trace w ++ t)%list ∧ Forall (held_disposable w m) t
}.

(** A container mapping at location 0 with a single record that caches an
    instance of [Connection], a single record that caches the number 0, and
    an unresolved record. *)
Definition disposable_world : world :=
  {| records := {[ 1 := ConfiguredDependency "db" (AutoWire Connection)
                          (VInstance 4 Connection []);
                   2 := ConfiguredDependency "count" zero_factory (VNumber 0);
                   3 := newConfiguredDependency "sample" (Factory sample_factory) ]};
     arrays := ∅;
     objects := {[ 0 := {[ "db" := 1; "count" := 2; "sample" := 3 ]} ]};
     next := 5;
     trace := [] |}.

(** ** Parent and child *)


(** The store after the user delegate [name], whose body is
    [new c(...args)], was called. *)
Definition after_creates (name : string) (c : Newable) (w : world) : world :=
  emit_event (Constructed (cname c) (next w)) (bump (emit_event (Invoked name) w)).

(** ** Collections *)

(** [replaceValue(value)] called on the record at [this]; only a
    [ConfiguredDependency] has the method. *)
Definition ConfiguredDependency_replaceValue (this : loc) (value : registrand) : M unit :=
  let! d := read_record this in
  match d with
  | ConfiguredDependency _ _ _ => write_record this (replaceValue d value)
  | ArrayDependency _ _ _ => throw (TypeError "dependency.replaceValue is not a function")
  end.

(** The entries of an array carry the keys [key-0], [key-1], ... in
    order. *)
Definition entries_keyed (w : world) (key : string) (xs : list loc) : Prop :=
  ∀ i x, xs !! i = Some x →
    ∃ f v, records w !! x = Some (ConfiguredDependency (entry_key key i) f v).

(** The entries [xs] are single records that cache the defined values
    [vs]. *)
Definition entries_cached (w : world) (xs : list loc) (vs : list val) : Prop :=
  Forall2 (λ x v, ∃ k f, records w !! x = Some (ConfiguredDependency k f v) ∧
                         is_undefined v = false) xs vs.

(** A registry that appends one plain value under ["two"]. *)
Definition add_policy : IServiceRegistry :=
  λ services, addDependency services "two" (Plain (VString "policyB")).

(** * Stack.ts and ServiceContainerStack *)

(** [Stack<T>]: the items are kept in an array, the top at the end. *)
Record Stack (A : Type) := { storage : list A }.
Arguments storage {A} _.

(** [new Stack<T>()] *)
Definition newStack {A} : Stack A := {| storage := [] |}.

(** [push(item)] *)
Definition Stack_push {A} (this : Stack A) (item : A) : Stack A :=
  {| storage := storage this ++ [item] |}.

(** [pop()]: [Array.prototype.pop] removes and returns the last element,
    and returns [undefined] on an empty array. *)
Definition Stack_pop {A} (this : Stack A) : option A * Stack A :=
  (last (storage this), {| storage := removelast (storage this) |}).

(** [size()] *)
Definition Stack_size {A} (this : Stack A) : nat := length (storage this).

(** [peek()]: [this.storage[this.size() - 1]]; the index is [-1] on an
    empty stack, where the array has no element. *)
Definition Stack_peek {A} (this : Stack A) : option A :=
  match Stack_size this with
  | 0 => None
  | S n => storage this !! n
  end.

(** [pop()] called [n] times: the items returned, first pop first, and the
    stack left. *)
Fixpoint Stack_pop_times {A} (n : nat) (this : Stack A) : list (option A) * Stack A :=
  match n with
  | 0 => ([], this)
  | S n =>
      let '(x, s) := Stack_pop this in
      let '(xs, s') := Stack_pop_times n s in
      (x :: xs, s')
  end.

(** [ServiceContainerStack] *)
Record ServiceContainerStack := { stack : Stack ServiceContainer }.

(** [new ServiceContainerStack(root)] *)
Definition newServiceContainerStack (root : ServiceContainer) : ServiceContainerStack :=
  {| stack := Stack_push newStack root |}.

(** [current()] *)
Definition ServiceContainerStack_current (this : ServiceContainerStack) :
    outcome ServiceContainer :=
  match Stack_peek (stack this) with
  | Some container => Ret container
  | None => Throw (Error "No container found")
  end.

(** [push(container)] *)
Definition ServiceContainerStack_push (this : ServiceContainerStack)
    (container : ServiceContainer) : ServiceContainerStack :=
  {| stack := Stack_push (stack this) container |}.

(** [pop()]: the popped container is dropped. *)
Definition ServiceContainerStack_pop (this : ServiceContainerStack) : ServiceContainerStack :=
  {| stack := (Stack_pop (stack this)).2 |}.

(** * Bootstrapping.ts *)

(** [IServiceModule]: [configureServices] modifies the collection it is
    given and, as the collection methods do here, returns the collection
    it leaves behind. *)
Record IServiceModule := {
  name : string;
  configureServices : ServiceCollection → M ServiceCollection
}.

(** [ServiceModuleMiddleware] and [ServiceModuleMiddlewareWithOptions] *)
Definition ServiceModuleMiddleware := ServiceCollection → M ServiceCollection.
Definition ServiceModuleMiddlewareWithOptions (Options : Type) :=
  ServiceCollection → Options → M ServiceCollection.

(** [new ServiceModule(name, middleware)] *)
Definition ServiceModule (name : string) (middleware : ServiceModuleMiddleware) :
    IServiceModule :=
  {| name := name; configureServices := λ services, middleware services |}.

(** [new ServiceModuleWithOptions(name, options, middleware)] *)
Definition ServiceModuleWithOptions {Options} (name : string) (options : Options)
    (middleware : ServiceModuleMiddlewareWithOptions Options) : IServiceModule :=
  {| name := name; configureServices := λ services, middleware services options |}.

(** [createServiceModule(name, middleware)] *)
Definition createServiceModule (name : string) (middleware : ServiceModuleMiddleware) :
    IServiceModule :=
  ServiceModule name middleware.

(** [createServiceModuleWithOptions(name, factory)] *)
Definition createServiceModuleWithOptions {Options} (name : string)
    (factory : ServiceModuleMiddlewareWithOptions Options) : Options → IServiceModule :=
  λ options, ServiceModuleWithOptions name options factory.

(** [BootstrappingServices.Activators] *)
Definition BootstrappingServices_Activators : string := "activators".

(** [BootstrapOptions] and the default options. *)
Record BootstrapOptions := { runActivators : bool }.

Definition defaultOptions : BootstrapOptions := {| runActivators := true |}.

(** [modules.forEach((module) => module.configureServices(services))] *)
Fixpoint configure_all (modules : list IServiceModule) (services : ServiceCollection) :
    M ServiceCollection :=
  match modules with
  | [] => ret services
  | module :: rest =>
      let! services := configureServices module services in
      configure_all rest services
  end.

(** [if (activators && activators.length) activators.forEach((x) =>
    x.activate())], where [activate] is what the [activate()] method of a
    value does.  An array has a [length] and a [forEach]; a string has a
    [length] and no [forEach]; the other values are taken to have no
    [length]. *)
Definition run_activators (activate : val → M unit) (activators : val) : M unit :=
  match activators with
  | VArray xs => if (length xs =? 0)%nat then ret tt else forEach activate xs
  | VString s =>
      if String.eqb s "" then ret tt
      else throw (TypeError "activators.forEach is not a function")
  | _ => ret tt
  end.

(** [createContainer(modules, options)] *)
Definition createContainer (fuel : nat) (activate : val → M unit)
    (modules : list IServiceModule) (options : BootstrapOptions) : M ServiceContainer :=
  let! services := newServiceCollection in
  let! services := configure_all modules services in
  let container := buildContainer services in
  (if runActivators options then
     let! registered := isRegistered services BootstrappingServices_Activators in
     if registered then
       let! activators := get fuel container (Key BootstrappingServices_Activators) in
       run_activators activate activators
     else ret tt
   else ret tt) >>
  ret container.

(** The store in which the modules of [createContainer] start, and the
    collection they are given. *)
Definition bootstrap_world (w : world) : world :=
  bump (with_objects (insert (next w) ∅) w).

Definition bootstrap_collection (w : world) : ServiceCollection :=
  {| collection_values := next w |}.

(** The module of the test 'resolve more than once', with plain values in
    the place of the mocks, and an activator that records its call. *)
Definition TestModule : IServiceModule :=
  createServiceModule "test" (λ services,
    let! services := addDependency services "two" (Plain (VString "policyA")) in
    let! services := addDependency services "two" (Plain (VString "policyB")) in
    let! services := register services "one" (Factory (Delegate "one" (Returns (VString "service")))) in
    add services BootstrappingServices_Activators StubActivator).

Definition record_activation (x : val) : M unit :=
  match x with
  | VInstance id _ _ => emit (Invoked ("activate " ++ pretty id))
  | _ => throw (TypeError "x.activate is not a function")
  end.

(** A module that registers one plain value. *)
Definition settings_module (K : string) (v : val) : IServiceModule :=
  createServiceModule "settings" (λ services, register services K (Plain v)).

(** The array that the container of [TestModule] returns for
    "activators". *)
Definition TestModule_activators : list val :=
  [VInstance 9 StubActivator [VString "service"; VArray [VString "policyA"; VString "policyB"]]].

(** * InteractionContext.ts *)

(** [typeof x === 'undefined'] for the values of a type. *)
Class Undefinable (A : Type) := typeof_undefined : A → bool.
#[global] Instance val_undefinable : Undefinable val := is_undefined.
#[global] Instance container_undefinable : Undefinable ServiceContainer := λ _, false.

(** [Lazy<T>]: the factory and the field [_value], [None] while it was
    never assigned or was reset. *)
Record Lazy (A : Type) := { factory : M A; _value : option A }.
Arguments factory {A} _.
Arguments _value {A} _.

(** [new Lazy(factory)] *)
Definition newLazy {A} (factory : M A) : Lazy A := {| factory := factory; _value := None |}.

(** [isValueCreated] *)
Definition Lazy_isValueCreated {A} `{Undefinable A} (this : Lazy A) : bool :=
  match _value this with
  | Some a => negb (typeof_undefined a)
  | None => false
  end.

(** [value]: the value handed out, and the object as the getter leaves
    it. *)
Definition Lazy_value {A} `{Undefinable A} (this : Lazy A) : M (A * Lazy A) :=
  match _value this with
  | Some a =>
      if Lazy_isValueCreated this then ret (a, this)
      else
        let! a := factory this in
        ret (a, {| factory := factory this; _value := Some a |})
  | None =>
      let! a := factory this in
      ret (a, {| factory := factory this; _value := Some a |})
  end.

(** [reset()] *)
Definition Lazy_reset {A} (this : Lazy A) : Lazy A :=
  {| factory := factory this; _value := None |}.

(** [InteractionContext<ClassUnderTest>].  The two [Lazy] members are
    kept as their [_value] fields; their factories are the closures of the
    constructor, [() => this.services.buildContainer()] and
    [() => this.container.resolve(constructor)], written out in the getters
    below.  [ServiceCollection], [buildContainer], [resolve] and [get] are
    those of Container.ts. *)
Record InteractionContext := {
  _services : ServiceCollection;
  _constructor : Newable;
  _container : option ServiceContainer;
  _classUnderTest : option val
}.

(** [new InteractionContext(services, constructor)] *)
Definition newInteractionContext (services : ServiceCollection) (constructor : Newable) :
    InteractionContext :=
  {| _services := services; _constructor := constructor;
     _container := None; _classUnderTest := None |}.

(** [get services()]: both members are reset. *)
Definition InteractionContext_services (this : InteractionContext) :
    ServiceCollection * InteractionContext :=
  (_services this,
   {| _services := _services this; _constructor := _constructor this;
      _container := None; _classUnderTest := None |}).

(** [get container()]: [this._container.value] *)
Definition InteractionContext_container (this : InteractionContext) :
    ServiceContainer * InteractionContext :=
  match _container this with
  | Some c => (c, this)
  | None =>
      let '(services, this) := InteractionContext_services this in
      let c := buildContainer services in
      (c, {| _services := _services this; _constructor := _constructor this;
             _container := Some c; _classUnderTest := _classUnderTest this |})
  end.

(** The factory of [_classUnderTest], and what [Lazy.value] stores.  The
    context is handed back with the result; when [resolve] throws, the
    container built on the way stays in [_container] in the source, and
    reading [container] again from the context as it was builds an equal
    one. *)
Definition InteractionContext_construct (fuel : nat) (this : InteractionContext) :
    M (val * InteractionContext) :=
  let '(c, this) := InteractionContext_container this in
  let! v := resolve fuel c (_constructor this) in
  ret (v, {| _services := _services this; _constructor := _constructor this;
             _container := _container this; _classUnderTest := Some v |}).

(** [get classUnderTest()]: [this._classUnderTest.value] *)
Definition InteractionContext_classUnderTest (fuel : nat) (this : InteractionContext) :
    M (val * InteractionContext) :=
  match _classUnderTest this with
  | Some v => if is_undefined v then InteractionContext_construct fuel this else ret (v, this)
  | None => InteractionContext_construct fuel this
  end.

(** [mockFor(key)] *)
Definition InteractionContext_mockFor (fuel : nat) (this : InteractionContext) (key : string) :
    M (val * InteractionContext) :=
  let '(c, this) := InteractionContext_container this in
  let! v := get fuel c (Key key) in
  ret (v, this).

(** The value cached for [key] by the mapping [m] in the store [w]. *)
Definition cached_value (w : world) (m : gmap string loc) (key : string) : val :=
  match m !! key with
  | Some r =>
      match records w !! r with
      | Some (ConfiguredDependency _ _ v) => v
      | _ => VUndefined
      end
  | None => VUndefined
  end.

(** [key] is bound by [m] to a single record that caches a defined
    value. *)
Definition bound_cached (w : world) (m : gmap string loc) (key : string) : Prop :=
  ∃ r k f v, m !! key = Some r ∧ records w !! r = Some (ConfiguredDependency k f v) ∧
             is_undefined v = false.

(** The store after [new constructor(...)] returned. *)
Definition after_construct (constructor : Newable) (w : world) : world :=
  emit_event (Constructed (cname constructor) (next w)) (bump w).

(** * Properties *)

(** ** Unfolding equations *)

Lemma _getService_S fuel this key :
  _getService (S fuel) this key =
    (let! values := read_object (container_values this) in
     match values !! key with
     | Some value => resolveValue fuel value this
     | None =>
         match container_parent this with
         | Some parent => _getService fuel parent key
         | None => UnknownDependency_resolveValue key values
         end
     end).
Proof. reflexivity. Qed.

Lemma resolveValue_S fuel this container :
  resolveValue (S fuel) this container =
    (let! d := read_record this in
     match d with
     | ConfiguredDependency _ factory value =>
         if is_undefined value then
           let! v := invoke fuel factory container in
           set_value this v >>
           ret v
         else ret value
     | ArrayDependency _ _ values =>
         set_resolved this >>
         let! xs := read_array values in
         let! vs := mapM (λ x, resolveValue fuel x container) xs in
         ret (VArray vs)
     end).
Proof. reflexivity. Qed.

Lemma invoke_S fuel factory container :
  invoke (S fuel) factory container =
    match factory with
    | Constant v => ret v
    | Delegate name b =>
        emit (Invoked name) >>
        match b with
        | Returns v => ret v
        | Creates c args => construct c args
        | Throws e => throw e
        end
    | AutoWire constructor =>
        if (length (getDependencyMetadata constructor) =? 0)%nat then construct constructor []
        else
          let! params :=
            mapM (λ m, _getService fuel container (dependencyKey m))
                 (rev (getDependencyMetadata constructor)) in
          construct constructor params
    end.
Proof. reflexivity. Qed.

Lemma get_Key fuel this key : get fuel this (Key key) = _getService fuel this key.
Proof. reflexivity. Qed.

(** ** Running the monad *)

Lemma bind_Ret {A B} (m : M A) (k : A → M B) w a w' :
  m w = (Ret a, w') → bind m k w = k a w'.
Proof. intros H. unfold bind. by rewrite H. Qed.

Lemma bind_Throw {A B} (m : M A) (k : A → M B) w e w' :
  m w = (Throw e, w') → bind m k w = (Throw e, w').
Proof. intros H. unfold bind. by rewrite H. Qed.

Lemma read_object_Some o m w :
  objects w !! o = Some m → read_object o w = (Ret m, w).
Proof. intros H. unfold read_object. by rewrite H. Qed.

Lemma read_record_Some r d w :
  records w !! r = Some d → read_record r w = (Ret d, w).
Proof. intros H. unfold read_record. by rewrite H. Qed.

Lemma read_array_Some a xs w :
  arrays w !! a = Some xs → read_array a w = (Ret xs, w).
Proof. intros H. unfold read_array. by rewrite H. Qed.

(** ** The frame of resolution *)

Section Preserves.
Context (R : relation world) `{!PreOrder R}.

Lemma preserves_ret {A} (a : A) : preserves R (ret a).
Proof. intros w o w' [= <- <-]. reflexivity. Qed.

Lemma preserves_throw {A} e : preserves R (@throw A e).
Proof. intros w o w' [= <- <-]. reflexivity. Qed.

Lemma preserves_out_of_fuel {A} : preserves R (@out_of_fuel A).
Proof. intros w o w' [= <- <-]. reflexivity. Qed.

Lemma preserves_bind {A B} (m : M A) (k : A → M B) :
  preserves R m → (∀ a, preserves R (k a)) → preserves R (bind m k).
Proof.
  intros Hm Hk w o w'. unfold bind.
  destruct (m w) as [[a|e|] w1] eqn:E; intros H.
  - etrans; [exact (Hm _ _ _ E) | exact (Hk _ _ _ _ H)].
  - injection H as <- <-. exact (Hm _ _ _ E).
  - injection H as <- <-. exact (Hm _ _ _ E).
Qed.

Lemma preserves_mapM {A B} (f : A → M B) xs :
  (∀ x, preserves R (f x)) → preserves R (mapM f xs).
Proof.
  intros Hf. induction xs as [|x xs IH]; simpl.
  - apply preserves_ret.
  - apply preserves_bind; [apply Hf|]. intros y.
    apply preserves_bind; [apply IH|]. intros ys. apply preserves_ret.
Qed.

Lemma preserves_forEach {A} (f : A → M unit) xs :
  (∀ x, preserves R (f x)) → preserves R (forEach f xs).
Proof.
  intros Hf. induction xs as [|x xs IH]; simpl.
  - apply preserves_ret.
  - apply preserves_bind; [apply Hf|]. intros _. apply IH.
Qed.
End Preserves.

#[local] Instance frame_preorder : PreOrder frame.
Proof.
  split.
  - intros w. by split.
  - intros w1 w2 w3 [o1 a1 s1 n1 t1] [o2 a2 s2 n2 t2]. split.
    + congruence.
    + congruence.
    + intros r. by rewrite s2, s1.
    + lia.
    + by etrans.
Qed.

Lemma frame_read_record r : preserves frame (read_record r).
Proof. intros w o w'. unfold read_record. destruct (_ !! _); intros [= <- <-]; reflexivity. Qed.

Lemma frame_read_object l : preserves frame (read_object l).
Proof. intros w o w'. unfold read_object. destruct (_ !! _); intros [= <- <-]; reflexivity. Qed.

Lemma frame_read_array l : preserves frame (read_array l).
Proof. intros w o w'. unfold read_array. destruct (_ !! _); intros [= <- <-]; reflexivity. Qed.

Lemma frame_emit e : preserves frame (emit e).
Proof.
  intros w o w' [= <- <-]. split; simpl; try done.
  by apply prefix_app_r.
Qed.

Lemma frame_construct c params : preserves frame (construct c params).
Proof.
  intros w o w'. unfold construct. destruct (body c).
  - intros [= <- <-]. reflexivity.
  - intros [= <- <-]. split; simpl; try done; [lia | by apply prefix_app_r].
Qed.

(** Writing a record of the same shape over an existing one stays in the
    frame. *)
Lemma frame_write_same_shape r d d' w :
  records w !! r = Some d → shape d' = shape d →
  frame w (with_records (insert r d') w).
Proof.
  intros Hr Hs. split; simpl; try done.
  intros r'. destruct (decide (r = r')) as [<-|Hne].
  - rewrite lookup_insert_eq, Hr. simpl. by rewrite Hs.
  - by rewrite lookup_insert_ne.
Qed.

Lemma frame_set_value r v : preserves frame (set_value r v).
Proof.
  intros w o w'. unfold set_value, bind, read_record.
  destruct (records w !! r) as [[k f old|k b a]|] eqn:E; intros [= <- <-];
    try reflexivity.
  by eapply frame_write_same_shape.
Qed.

Lemma frame_set_resolved r : preserves frame (set_resolved r).
Proof.
  intros w o w'. unfold set_resolved, bind, read_record.
  destruct (records w !! r) as [[k f old|k b a]|] eqn:E; intros [= <- <-];
    try reflexivity.
  by eapply frame_write_same_shape.
Qed.

Lemma frame_resolution fuel :
  (∀ this key, preserves frame (_getService fuel this key)) ∧
  (∀ this container, preserves frame (resolveValue fuel this container)) ∧
  (∀ factory container, preserves frame (invoke fuel factory container)).
Proof.
  induction fuel as [|fuel (IHg & IHr & IHi)].
  { split; [|split]; intros; apply preserves_out_of_fuel; apply _. }
  split; [|split].
  - intros this key. rewrite _getService_S.
    apply preserves_bind; [apply _ | apply frame_read_object |]. intros values.
    destruct (values !! key); [apply IHr|].
    destruct (container_parent this); [apply IHg|].
    apply preserves_bind; [apply _ | apply frame_emit |]. intros _.
    apply preserves_throw; apply _.
  - intros this container. rewrite resolveValue_S.
    apply preserves_bind; [apply _ | apply frame_read_record |].
    intros [k f v|k b a].
    + destruct (is_undefined v); [|apply preserves_ret; apply _].
      apply preserves_bind; [apply _ | apply IHi |]. intros v'.
      apply preserves_bind; [apply _ | apply frame_set_value |]. intros _.
      apply preserves_ret; apply _.
    + apply preserves_bind; [apply _ | apply frame_set_resolved |]. intros _.
      apply preserves_bind; [apply _ | apply frame_read_array |]. intros xs.
      apply preserves_bind; [apply _ | |].
      * apply preserves_mapM; [apply _|]. intros x. apply IHr.
      * intros vs. apply preserves_ret; apply _.
  - intros factory container. rewrite invoke_S.
    destruct factory as [v|name b|c].
    + apply preserves_ret; apply _.
    + apply preserves_bind; [apply _ | apply frame_emit |]. intros _.
      destruct b; [apply preserves_ret; apply _ | apply frame_construct
                  | apply preserves_throw; apply _].
    + destruct (_ =? _)%nat; [apply frame_construct|].
      apply preserves_bind; [apply _ | |].
      * apply preserves_mapM; [apply _|]. intros m. apply IHg.
      * intros params. apply frame_construct.
Qed.

Lemma frame_invoke fuel factory container : preserves frame (invoke fuel factory container).
Proof. apply frame_resolution. Qed.

Lemma frame_getService fuel this key : preserves frame (_getService fuel this key).
Proof. apply frame_resolution. Qed.

Lemma frame_resolveValue fuel this container : preserves frame (resolveValue fuel this container).
Proof. apply frame_resolution. Qed.

(** ** More fuel changes nothing *)

Lemma stable_refl {A} (m : M A) : stable m m.
Proof. by intros w o w' H _. Qed.

Lemma stable_bind {A B} (m m' : M A) (k k' : A → M B) :
  stable m m' → (∀ a, stable (k a) (k' a)) → stable (bind m k) (bind m' k').
Proof.
  intros Hm Hk w o w'. unfold bind.
  destruct (m w) as [[a|e|] w1] eqn:E; intros H Ho.
  - rewrite (Hm _ _ _ E); [|done]. by apply Hk.
  - rewrite (Hm _ _ _ E); done.
  - by injection H as <- <-.
Qed.

Lemma stable_mapM {A B} (f f' : A → M B) xs :
  (∀ x, stable (f x) (f' x)) → stable (mapM f xs) (mapM f' xs).
Proof.
  intros Hf. induction xs as [|x xs IH]; simpl; [apply stable_refl|].
  apply stable_bind; [apply Hf|]. intros y.
  apply stable_bind; [apply IH|]. intros ys. apply stable_refl.
Qed.

(** A resolution that ends with a value or an error within [n] units of
    fuel ends in the same way with any larger amount. *)
Lemma fuel_monotone (n : nat) :
  ∀ m, (n ≤ m)%nat →
    (∀ this key, stable (_getService n this key) (_getService m this key)) ∧
    (∀ this container, stable (resolveValue n this container) (resolveValue m this container)) ∧
    (∀ factory container, stable (invoke n factory container) (invoke m factory container)).
Proof.
  induction n as [|n IH]; intros m Hle.
  { split; [|split]; intros; intros w o w' [= <- <-] Ho; done. }
  destruct m as [|m]; [lia|].
  destruct (IH m) as (IHg & IHr & IHi); [lia|].
  split; [|split].
  - intros this key. rewrite !_getService_S.
    apply stable_bind; [apply stable_refl|]. intros values.
    destruct (values !! key); [apply IHr|].
    destruct (container_parent this); [apply IHg | apply stable_refl].
  - intros this container. rewrite !resolveValue_S.
    apply stable_bind; [apply stable_refl|]. intros [k f v|k b a].
    + destruct (is_undefined v); [|apply stable_refl].
      apply stable_bind; [apply IHi|]. intros v'. apply stable_refl.
    + apply stable_bind; [apply stable_refl|]. intros _.
      apply stable_bind; [apply stable_refl|]. intros xs.
      apply stable_bind; [|intros vs; apply stable_refl].
      apply stable_mapM. intros x. apply IHr.
  - intros factory container. rewrite !invoke_S.
    destruct factory as [v|name b|c]; try apply stable_refl.
    destruct (_ =? _)%nat; [apply stable_refl|].
    apply stable_bind; [|intros params; apply stable_refl].
    apply stable_mapM. intros x. apply IHg.
Qed.

Lemma get_fuel_monotone (n m : nat) this keys w o w' :
  (n ≤ m)%nat → get n this keys w = (o, w') → o ≠ OutOfFuel → get m this keys w = (o, w').
Proof.
  intros Hle. destruct (fuel_monotone n m Hle) as (Hg & _ & _).
  destruct keys as [key|ks]; simpl; [apply Hg|].
  destruct (_ && _); [|by intros].
  apply stable_bind; [|intros vs; apply stable_refl].
  apply stable_mapM. intros x. apply Hg.
Qed.

(** ** Lookup by key *)

(** The three ways of [_getService], on a container whose mapping is
    [values]. *)
Lemma getService_cases fuel this key values w :
  objects w !! container_values this = Some values →
  _getService (S fuel) this key w =
    match values !! key with
    | Some r => resolveValue fuel r this w
    | None =>
        match container_parent this with
        | Some parent => _getService fuel parent key w
        | None =>
            (Throw (Error ("Unrecognized service: " ++ key)),
             emit_event (Logged (keys_of values)) w)
        end
    end.
Proof.
  intros Hobj. rewrite _getService_S.
  rewrite (bind_Ret _ _ _ _ _ (read_object_Some _ _ _ Hobj)).
  destruct (values !! key); [done|]. by destruct (container_parent this).
Qed.

Lemma getService_bound fuel this key values r w :
  objects w !! container_values this = Some values →
  values !! key = Some r →
  get (S fuel) this (Key key) w = resolveValue fuel r this w.
Proof. intros Hobj Hk. by rewrite get_Key, (getService_cases _ _ _ _ _ Hobj), Hk. Qed.

Lemma getService_parent fuel this key values parent w :
  objects w !! container_values this = Some values →
  values !! key = None →
  container_parent this = Some parent →
  get (S fuel) this (Key key) w = get fuel parent (Key key) w.
Proof.
  intros Hobj Hk Hp. by rewrite !get_Key, (getService_cases _ _ _ _ _ Hobj), Hk, Hp.
Qed.

Lemma getService_unknown fuel this key values w :
  objects w !! container_values this = Some values →
  values !! key = None →
  container_parent this = None →
  get (S fuel) this (Key key) w =
    (Throw (Error ("Unrecognized service: " ++ key)),
     emit_event (Logged (keys_of values)) w).
Proof.
  intros Hobj Hk Hp. by rewrite get_Key, (getService_cases _ _ _ _ _ Hobj), Hk, Hp.
Qed.



(** Delegation is transitive: a key bound nowhere on the way up fails at
    the root with the error that names it, whatever the length of the
    chain. *)
Lemma get_unbound_chain (K : string) (w : world) (c : ServiceContainer) (fuel : nat) :
  unbound w K c →
  ∃ w', get (S (depth c) + fuel) c (Key K) w =
          (Throw (Error ("Unrecognized service: " ++ K)), w').
Proof.
  remember (depth c) as n eqn:Hn. revert c Hn.
  induction n as [|n IH]; intros [values [p|] prov] Hn [(m & Hm & HK) Hp];
    simpl in Hn; try discriminate.
  - eexists. by apply (getService_unknown _ (Container values None prov) _ _ _ Hm HK).
  - injection Hn as Hn.
    destruct (IH p Hn Hp) as (w' & Hw'). exists w'.
    replace (S (S n) + fuel) with (S (S n + fuel)) by lia.
    rewrite (getService_parent _ (Container values (Some p) prov) _ _ p _ Hm HK eq_refl).
    exact Hw'.
Qed.

(** ** Merging collections *)

(** A cached value is returned as it is: neither the factory nor the store
    is touched. *)
Lemma resolveValue_cached fuel r container key factory v w :
  records w !! r = Some (ConfiguredDependency key factory v) →
  is_undefined v = false →
  resolveValue (S fuel) r container w = (Ret v, w).
Proof.
  intros Hr Hv. rewrite resolveValue_S.
  rewrite (bind_Ret _ _ _ _ _ (read_record_Some _ _ _ Hr)).
  by rewrite Hv.
Qed.



(** ** Registration *)

Lemma allocated_record w r d : allocated w → records w !! r = Some d → r < next w.
Proof. intros (H & _ & _) Hr. exact (H r d Hr). Qed.

Lemma allocated_array w a xs : allocated w → arrays w !! a = Some xs → a < next w.
Proof. intros (_ & H & _) Ha. exact (H a xs Ha). Qed.

Lemma allocated_object w o m : allocated w → objects w !! o = Some m → o < next w.
Proof. intros (_ & _ & H) Ho. exact (H o m Ho). Qed.

Lemma ArrayDependency_register_run r key b a xs value w :
  records w !! r = Some (ArrayDependency key b a) →
  arrays w !! a = Some xs →
  ArrayDependency_register r value w =
    (Ret tt, appended a xs (newConfiguredDependency (entry_key key (length xs)) value) w).
Proof.
  intros Hr Ha. unfold ArrayDependency_register.
  rewrite (bind_Ret _ _ _ _ _ (read_record_Some _ _ _ Hr)).
  by rewrite (bind_Ret _ _ _ _ _ (read_array_Some _ _ _ Ha)).
Qed.

Lemma ArrayDependency_push_run r key b a xs clazz w :
  records w !! r = Some (ArrayDependency key b a) →
  arrays w !! a = Some xs →
  ArrayDependency_push r clazz w =
    (Ret tt, appended a xs
               (newConfiguredDependency (entry_key key (length xs))
                  (Factory (createAutoWireFactory clazz))) w).
Proof.
  intros Hr Ha. unfold ArrayDependency_push.
  rewrite (bind_Ret _ _ _ _ _ (read_record_Some _ _ _ Hr)).
  by rewrite (bind_Ret _ _ _ _ _ (read_array_Some _ _ _ Ha)).
Qed.

(** What [appended] leaves in the store. *)
Lemma appended_spec a xs d r key b w :
  allocated w →
  records w !! r = Some (ArrayDependency key b a) →
  let w' := appended a xs d w in
  objects w' = objects w ∧
  records w' !! r = Some (ArrayDependency key b a) ∧
  arrays w' !! a = Some (xs ++ [next w])%list ∧
  records w' !! next w = Some d.
Proof.
  intros Hal Hr. simpl. split; [done|]. split; [|split].
  - rewrite lookup_insert_ne; [done|].
    pose proof (allocated_record _ _ _ Hal Hr). lia.
  - apply lookup_insert_eq.
  - apply lookup_insert_eq.
Qed.

Lemma array_entry_bound this K m r w :
  objects w !! collection_values this = Some m →
  m !! K = Some r →
  array_entry this K w = (Ret r, w).
Proof.
  intros Hm HK. unfold array_entry.
  rewrite (bind_Ret _ _ _ _ _ (read_object_Some _ _ _ Hm)). by rewrite HK.
Qed.

Lemma array_entry_absent this K m w :
  objects w !! collection_values this = Some m →
  m !! K = None →
  array_entry this K w = (Ret (S (next w)), with_array_entry this K m w).
Proof.
  intros Hm HK. unfold array_entry.
  rewrite (bind_Ret _ _ _ _ _ (read_object_Some _ _ _ Hm)). rewrite HK.
  unfold bind, new_array, new_record, set_entry, bind, read_object, write_object, ret.
  simpl. by rewrite Hm.
Qed.

Lemma register_run this K value m w :
  objects w !! collection_values this = Some m →
  register this K value w = (Ret this, registered this K value m w).
Proof.
  intros Hm. unfold register, set_entry, bind, new_record, read_object, write_object, ret.
  simpl. by rewrite Hm.
Qed.

Lemma one_array_world_allocated : allocated one_array_world.
Proof. split; [|split]; apply (bool_decide_unpack _); by vm_compute. Qed.



(** The record under a key is taken for a multi-binding record without a
    test: on a key bound to a single record the call of [push] or
    [register] on it is a [TypeError]. *)
Lemma add_on_single_record :
  (add_after_register empty_world).1 = Throw (TypeError "dependency.push is not a function") ∧
  (addDependency_after_register empty_world).1 =
    Throw (TypeError "dependency.register is not a function").
Proof. split; by vm_compute. Qed.

(** ** Resolve-once caching *)

Lemma shape_configured d key factory :
  shape d = (key, Some factory, None) → ∃ v, d = ConfiguredDependency key factory v.
Proof. destruct d; intros [= <- <-]; eauto. Qed.

(** A record found before a resolution step is a record of the same class,
    key and factory after it. *)
Lemma frame_configured w w' r key factory v :
  frame w w' → records w !! r = Some (ConfiguredDependency key factory v) →
  ∃ v', records w' !! r = Some (ConfiguredDependency key factory v').
Proof.
  intros Hf Hr. pose proof (frame_shape _ _ Hf r) as Hs. rewrite Hr in Hs.
  destruct (records w' !! r) as [d|]; [|discriminate].
  injection Hs as Hs. destruct (shape_configured _ _ _ Hs) as (v' & ->). eauto.
Qed.

Lemma set_value_run r key factory old v w :
  records w !! r = Some (ConfiguredDependency key factory old) →
  set_value r v w =
    (Ret tt, with_records (insert r (ConfiguredDependency key factory v)) w).
Proof.
  intros Hr. unfold set_value.
  by rewrite (bind_Ret _ _ _ _ _ (read_record_Some _ _ _ Hr)).
Qed.

(** The first resolution of an unresolved record: the factory runs, and
    what it returns is stored in the record and handed back. *)
Lemma resolveValue_first fuel r container key factory v w w1 :
  records w !! r = Some (ConfiguredDependency key factory VUndefined) →
  invoke fuel factory container w = (Ret v, w1) →
  resolveValue (S fuel) r container w =
    (Ret v, with_records (insert r (ConfiguredDependency key factory v)) w1).
Proof.
  intros Hr Hi. rewrite resolveValue_S.
  rewrite (bind_Ret _ _ _ _ _ (read_record_Some _ _ _ Hr)). simpl.
  rewrite (bind_Ret _ _ _ _ _ Hi).
  destruct (frame_configured _ _ _ _ _ _ (frame_invoke _ _ _ _ _ _ Hi) Hr) as (v' & Hr1).
  by rewrite (bind_Ret _ _ _ _ _ (set_value_run _ _ _ _ v _ Hr1)).
Qed.

Lemma filter_app_length {A} (p : A → bool) (xs ys : list A) :
  length (List.filter p (xs ++ ys)) = length (List.filter p xs) + length (List.filter p ys).
Proof. by rewrite List.filter_app, length_app. Qed.

(** One call of a user delegate that returns is one more [Invoked] event
    for its name. *)
Lemma invoke_delegate_once fuel name b container w v w1 :
  invoke fuel (Delegate name b) container w = (Ret v, w1) →
  invocations name w1 = S (invocations name w).
Proof.
  destruct fuel as [|fuel]; [discriminate|]. rewrite invoke_S.
  unfold bind, emit, invocations. simpl.
  destruct b as [v0|c args|e]; simpl.
  - intros [= <- <-]. simpl. rewrite filter_app_length. simpl.
    rewrite String.eqb_refl. simpl. lia.
  - unfold construct. destruct (body c); [discriminate|].
    intros [= <- <-]. simpl. rewrite !filter_app_length. simpl.
    rewrite String.eqb_refl. simpl. lia.
  - discriminate.
Qed.

(** C2, as the code has it.  Let [K] be bound on a container to an
    unresolved record with factory [F], and let the first call of [F]
    return a value [v] other than [undefined].  Then [N ≥ 1] calls of
    [get(K)] on that container all return [v]; the store after them is the
    store left by that one call of [F] with [v] cached in the record, so
    nothing else ran: the trace is the one of the single call, and a user
    delegate [F] has been invoked exactly once.  From then on
    [resolveValue] of the record returns [v] and leaves the store as it
    is. *)
Theorem resolve_once (fuel : nat) (this : ServiceContainer) (K : string)
    (m : gmap string loc) (r : loc) (key : string) (F : ValueFactoryDelegate)
    (v : val) (w w1 : world) :
  objects w !! container_values this = Some m →
  m !! K = Some r →
  records w !! r = Some (ConfiguredDependency key F VUndefined) →
  invoke fuel F this w = (Ret v, w1) →
  is_undefined v = false →
  ∃ w2,
    (∀ N, get_times (S N) (S (S fuel)) this K w = (Ret (replicate (S N) v), w2)) ∧
    trace w2 = trace w1 ∧
    records w2 !! r = Some (ConfiguredDependency key F v) ∧
    (∀ name b, F = Delegate name b → invocations name w2 = S (invocations name w)) ∧
    (∀ fuel' container, resolveValue (S fuel') r container w2 = (Ret v, w2)).
Proof.
  intros Hm HK Hr Hi Hv.
  set (w2 := with_records (insert r (ConfiguredDependency key F v)) w1).
  assert (Hr2 : records w2 !! r = Some (ConfiguredDependency key F v))
    by apply lookup_insert_eq.
  assert (Hm2 : objects w2 !! container_values this = Some m).
  { simpl. by rewrite (frame_objects _ _ (frame_invoke _ _ _ _ _ _ Hi)). }
  assert (Hfirst : get (S (S fuel)) this (Key K) w = (Ret v, w2)).
  { rewrite (getService_bound _ _ _ _ _ _ Hm HK). by apply resolveValue_first. }
  assert (Hagain : get (S (S fuel)) this (Key K) w2 = (Ret v, w2)).
  { rewrite (getService_bound _ _ _ _ _ _ Hm2 HK). by eapply resolveValue_cached. }
  assert (Hrest : ∀ N, get_times N (S (S fuel)) this K w2 = (Ret (replicate N v), w2)).
  { induction N as [|N IH]; [done|].
    cbn [get_times]. rewrite (bind_Ret _ _ _ _ _ Hagain).
    by rewrite (bind_Ret _ _ _ _ _ IH). }
  exists w2. split; [|split; [|split; [|split]]]; try done.
  - intros N. cbn [get_times]. rewrite (bind_Ret _ _ _ _ _ Hfirst).
    by rewrite (bind_Ret _ _ _ _ _ (Hrest N)).
  - intros name b ->. by apply (invoke_delegate_once fuel name b this w v w1).
  - intros fuel' container. by eapply resolveValue_cached.
Qed.

Lemma resolve_once_witness :
  ∃ w2,
    (∀ N, get_times (S N) 3 (Container 0 None None) "sample" sample_world =
            (Ret (replicate (S N) (VInstance 2 SampleService [VString "1234"])), w2)) ∧
    trace w2 = [Invoked "sample"; Constructed "SampleService" 2] ∧
    records w2 !! 1 =
      Some (ConfiguredDependency "sample" sample_factory
              (VInstance 2 SampleService [VString "1234"])) ∧
    (∀ name b, sample_factory = Delegate name b →
               invocations name w2 = S (invocations name sample_world)) ∧
    (∀ fuel' container,
       resolveValue (S fuel') 1 container w2 =
         (Ret (VInstance 2 SampleService [VString "1234"]), w2)).
Proof.
  apply (resolve_once 1 (Container 0 None None) "sample" {[ "sample" := 1 ]} 1 "sample"
           sample_factory (VInstance 2 SampleService [VString "1234"]) sample_world
           (invoke 1 sample_factory (Container 0 None None) sample_world).2);
    reflexivity.
Defined.

(** C2 fails as stated: a key registered with a factory that returns
    [undefined] is never cached, and two calls of [get] invoke the factory
    twice. *)
Lemma resolve_once_counterexample :
  ∃ w2,
    get_times 2 3 (Container 0 None None) "k" undefined_world =
      (Ret [VUndefined; VUndefined], w2) ∧
    invocations "nothing" undefined_world = 0 ∧
    invocations "nothing" w2 = 2.
Proof. eexists. split; [|split]; reflexivity. Qed.

(** ** Auto-wiring *)

Lemma mapM_in_turn {A B} (f : A → M B) xs w ys w' :
  mapM f xs w = (Ret ys, w') → in_turn f xs w ys w'.
Proof.
  revert w ys. induction xs as [|x xs IH]; intros w ys; simpl.
  - intros [= <- <-]. constructor.
  - unfold bind at 1. destruct (f x w) as [[y|e|] w1] eqn:E; try discriminate.
    unfold bind at 1. destruct (mapM f xs w1) as [[ys'|e|] w2] eqn:E'; try discriminate.
    intros [= <- <-]. econstructor; eauto.
Qed.

Lemma in_turn_mapM {A B} (f : A → M B) xs w ys w' :
  in_turn f xs w ys w' → mapM f xs w = (Ret ys, w').
Proof.
  induction 1 as [|x xs y ys w w1 w2 Hx _ IH]; [done|].
  cbn [mapM]. rewrite (bind_Ret _ _ _ _ _ Hx). by rewrite (bind_Ret _ _ _ _ _ IH).
Qed.

Lemma in_turn_lookup {A B} (f : A → M B) xs w ys w' i x :
  in_turn f xs w ys w' → xs !! i = Some x →
  ∃ y wi wi', f x wi = (Ret y, wi') ∧ ys !! i = Some y.
Proof.
  intros H. revert i. induction H as [|x0 xs y ys w w1 w2 Hx _ IH]; intros i.
  - by rewrite lookup_nil.
  - destruct i as [|i]; simpl.
    + intros [= ->]. eauto.
    + apply IH.
Qed.

Lemma in_turn_length {A B} (f : A → M B) xs w ys w' :
  in_turn f xs w ys w' → length ys = length xs.
Proof. induction 1; simpl; congruence. Qed.

Lemma insert_by_index_last m xs :
  Forall (λ x, (parameterIndex x ≤ parameterIndex m)%nat) xs →
  insert_by_index m xs = (xs ++ [m])%list.
Proof.
  induction 1 as [|x xs Hx _ IH]; simpl; [done|].
  destruct (Nat.ltb_spec (parameterIndex m) (parameterIndex x)); [lia|].
  by rewrite IH.
Qed.

Lemma elem_of_rev {A} (x : A) (l : list A) : x ∈ rev l ↔ x ∈ l.
Proof. rewrite !list_elem_of_In. symmetry. apply in_rev. Qed.

Lemma rev_seq_S i n : rev (seq i (S n)) = (i + n)%nat :: rev (seq i n).
Proof. rewrite seq_S. by rewrite rev_app_distr. Qed.

(** When the entries were recorded in descending parameter order,
    reversing them sorts them. *)
Lemma recorded_descending_rev metadata :
  recorded_descending metadata → rev metadata = spec_parameter_order metadata.
Proof.
  unfold recorded_descending.
  induction metadata as [|m rest IH]; [done|].
  cbn [length map]. rewrite rev_seq_S. intros [= Hm Hrest].
  cbn [spec_parameter_order rev]. rewrite <- (IH Hrest).
  rewrite insert_by_index_last; [done|].
  apply Forall_forall. intros x Hx. apply (proj1 (elem_of_rev _ _)) in Hx.
  assert (Hi : parameterIndex x ∈ map parameterIndex rest).
  { apply list_elem_of_In, in_map, list_elem_of_In, Hx. }
  rewrite Hrest in Hi. apply (proj1 (elem_of_rev _ _)), elem_of_seq in Hi.
  simpl in Hm. lia.
Qed.

Lemma recorded_descending_position metadata i m :
  recorded_descending metadata → rev metadata !! i = Some m → parameterIndex m = i.
Proof.
  unfold recorded_descending. intros Hd Hi.
  assert (H : map parameterIndex (rev metadata) !! i = Some (parameterIndex m)).
  { change (map parameterIndex (rev metadata)) with (parameterIndex <$> rev metadata).
    by rewrite list_lookup_fmap, Hi. }
  rewrite map_rev, Hd, rev_involutive in H.
  apply lookup_seq in H. lia.
Qed.

(** Decorating every parameter of a class without metadata records the
    entries in descending parameter order. *)
Lemma decorate_indices i keys target :
  metadata target = [] →
  map parameterIndex (metadata (decorate i keys target)) = rev (seq i (length keys)).
Proof.
  intros Ht. revert i. induction keys as [|k ks IH]; intros i; simpl; [by rewrite Ht|].
  unfold getDependencyMetadata. by rewrite map_app, IH.
Qed.

Lemma decorate_recorded_descending keys target :
  metadata target = [] → recorded_descending (metadata (decorate 0 keys target)).
Proof.
  intros Ht. unfold recorded_descending. rewrite decorate_indices by done.
  f_equal. f_equal.
  rewrite <- (length_map parameterIndex), decorate_indices by done.
  by rewrite length_rev, length_seq.
Qed.

Lemma construct_Ret constructor params w v w' :
  construct constructor params w = (Ret v, w') →
  v = VInstance (next w) constructor params.
Proof. unfold construct. destruct (body constructor); [discriminate|]. by intros [= <- <-]. Qed.

(** C3, as the code has it.  With empty metadata the auto-wire factory
    instantiates the constructor with no arguments.  Otherwise it resolves
    the dependency keys of the entries from the given container in the
    reverse of the order in which they were recorded, and instantiates the
    constructor with the values in that order.  When the entries were
    recorded for the parameters [n-1] down to [0], which is how the
    parameter decorators record them, that order is the ascending
    parameter order (the entries sorted by parameter index): if the keys
    resolve one after the other in that order to [args], the factory
    instantiates the constructor with [args], and the value resolved for an
    entry is the argument at that entry's parameter position; and whenever
    the factory returns, it returns an instance built that way. *)
Theorem autowire_reverse_order (fuel : nat) (constructor : Newable)
    (container : ServiceContainer) (w : world) :
  let metadata := getDependencyMetadata constructor in
  let resolve_entry := λ m, _getService fuel container (dependencyKey m) in
  (metadata = [] →
     invoke (S fuel) (createAutoWireFactory constructor) container w =
       construct constructor [] w) ∧
  (metadata ≠ [] →
     invoke (S fuel) (createAutoWireFactory constructor) container w =
       (let! params := mapM resolve_entry (rev metadata) in
        construct constructor params) w) ∧
  (recorded_descending metadata →
     rev metadata = spec_parameter_order metadata ∧
     (∀ args w1, in_turn resolve_entry (spec_parameter_order metadata) w args w1 →
        invoke (S fuel) (createAutoWireFactory constructor) container w =
          construct constructor args w1 ∧
        length args = length metadata ∧
        ∀ m, m ∈ metadata →
          ∃ a wi wi', resolve_entry m wi = (Ret a, wi') ∧
                      args !! parameterIndex m = Some a) ∧
     (∀ v w', invoke (S fuel) (createAutoWireFactory constructor) container w = (Ret v, w') →
        ∃ args w1,
          in_turn resolve_entry (spec_parameter_order metadata) w args w1 ∧
          v = VInstance (next w1) constructor args)).
Proof.
  intros metadata resolve_entry. unfold createAutoWireFactory. rewrite invoke_S.
  fold metadata. split; [|split].
  - by intros ->.
  - intros Hne. destruct metadata; [done|]. reflexivity.
  - intros Hd. split; [by apply recorded_descending_rev|].
    rewrite <- (recorded_descending_rev _ Hd). split.
    + intros args w1 Hturn. split; [|split].
      * destruct metadata as [|m0 rest] eqn:E.
        -- by inversion Hturn.
        -- rewrite <- E in *.
           assert (Hnz : (length metadata =? 0)%nat = false) by by rewrite E.
           rewrite Hnz. fold resolve_entry.
           by rewrite (bind_Ret _ _ _ _ _ (in_turn_mapM _ _ _ _ _ Hturn)).
      * by rewrite (in_turn_length _ _ _ _ _ Hturn), length_rev.
      * intros m Hin. apply (proj2 (elem_of_rev _ _)), list_elem_of_lookup in Hin as (i & Hi).
        destruct (in_turn_lookup _ _ _ _ _ _ _ Hturn Hi) as (a & wi & wi' & Ha & Hargs).
        rewrite (recorded_descending_position _ _ _ Hd Hi). eauto.
    + intros v w' Hrun. destruct metadata as [|m0 rest] eqn:E.
      * simpl in Hrun. exists [], w. split; [constructor | by eapply construct_Ret].
      * rewrite <- E in *.
        assert (Hnz : (length metadata =? 0)%nat = false) by by rewrite E.
        rewrite Hnz in Hrun. fold resolve_entry in Hrun. unfold bind in Hrun.
        destruct (mapM resolve_entry (rev metadata) w) as [[args|e|] w1] eqn:Em;
          try discriminate.
        apply mapM_in_turn in Em. exists args, w1.
        split; [done | by eapply construct_Ret].
Qed.

Lemma autowire_reverse_order_witness :
  rev (getDependencyMetadata StubActivator) =
    spec_parameter_order (getDependencyMetadata StubActivator) ∧
  (∀ args w1,
     in_turn (λ m, _getService 2 (Container 0 None None) (dependencyKey m))
       (spec_parameter_order (getDependencyMetadata StubActivator)) activator_world args w1 →
     invoke 3 (createAutoWireFactory StubActivator) (Container 0 None None) activator_world
       = construct StubActivator args w1 ∧
     length args = length (getDependencyMetadata StubActivator) ∧
     ∀ m, m ∈ getDependencyMetadata StubActivator →
       ∃ a wi wi',
         _getService 2 (Container 0 None None) (dependencyKey m) wi = (Ret a, wi') ∧
         args !! parameterIndex m = Some a) ∧
  (∀ v w',
     invoke 3 (createAutoWireFactory StubActivator) (Container 0 None None) activator_world
       = (Ret v, w') →
     ∃ args w1,
       in_turn (λ m, _getService 2 (Container 0 None None) (dependencyKey m))
         (spec_parameter_order (getDependencyMetadata StubActivator)) activator_world args w1 ∧
       v = VInstance (next w1) StubActivator args).
Proof.
  apply (autowire_reverse_order 2 StubActivator (Container 0 None None) activator_world).
  reflexivity.
Defined.

(** [StubActivator] on a container that binds both keys: the instance
    receives the value of ["one"] first and the value of ["two"] second. *)
Lemma autowire_StubActivator :
  (resolve 3 (Container 0 None None) StubActivator activator_world).1 =
    Ret (VInstance 3 StubActivator [VString "service"; VString "policies"]).
Proof. by vm_compute. Qed.

(** C3 fails as stated.  The value resolved for the entry of parameter 1
    is passed as argument 0 when parameter 0 carries no marker; and entries
    recorded in ascending order are resolved in descending parameter order
    and passed in that order, since the factory reverses the list and does
    not sort it. *)
Lemma autowire_reverse_order_counterexample :
  (resolve 3 (Container 0 None None) SecondOnly ab_world).1 =
    Ret (VInstance 3 SecondOnly [VString "B"]) ∧
  (resolve 3 (Container 0 None None) Ascending ab_world).1 =
    Ret (VInstance 3 Ascending [VString "B"; VString "A"]) ∧
  rev (getDependencyMetadata Ascending) ≠
    spec_parameter_order (getDependencyMetadata Ascending).
Proof.
  split; [|split].
  - by vm_compute.
  - by vm_compute.
  - discriminate.
Qed.

(** ** Forking a child container *)

Lemma extends_refl lv w : extends lv w w.
Proof. by split. Qed.

Lemma extends_trans lv w1 w2 w3 : extends lv w1 w2 → extends lv w2 w3 → extends lv w1 w3.
Proof.
  intros [r1 a1 o1 n1 t1] [r2 a2 o2 n2 t2]. split.
  - intros r Hr. rewrite r2 by lia. by apply r1.
  - congruence.
  - intros o Ho. rewrite o2 by done. by apply o1.
  - lia.
  - congruence.
Qed.

Lemma clone_run r d w :
  records w !! r = Some d →
  clone r w = (Ret (next w), bump (with_records (insert (next w) (clone_of d)) w)).
Proof.
  intros Hr. unfold clone.
  rewrite (bind_Ret _ _ _ _ _ (read_record_Some _ _ _ Hr)). by destruct d.
Qed.

Lemma clone_entry_run this lv m mc key r d w :
  objects w !! container_values this = Some m →
  objects w !! lv = Some mc →
  m !! key = Some r →
  records w !! r = Some d →
  clone_entry this lv key w = (Ret tt, with_clone lv mc key d w).
Proof.
  intros Hm Hlv Hk Hr. unfold clone_entry.
  rewrite (bind_Ret _ _ _ _ _ (read_object_Some _ _ _ Hm)). rewrite Hk.
  rewrite (bind_Ret _ _ _ _ _ (clone_run _ _ _ Hr)).
  unfold bind, read_object, write_object. simpl. by rewrite Hlv.
Qed.

Lemma with_clone_extends lv mc key d w : extends lv w (with_clone lv mc key d w).
Proof.
  split; simpl; try done.
  - intros r Hr. rewrite lookup_insert_ne; [done | lia].
  - intros o Ho. by rewrite lookup_insert_ne.
  - lia.
Qed.

(** The loop of [createChildContainer]: every key of [ks] ends up bound, in
    the mapping at [lv], to a new record that is the clone of the record
    the parent binds it to; no other key of that mapping changes. *)
Lemma clone_entries_run this lv m ks : ∀ w mc,
  container_values this ≠ lv →
  objects w !! container_values this = Some m →
  objects w !! lv = Some mc →
  (∀ k, k ∈ ks → ∃ r d, m !! k = Some r ∧ records w !! r = Some d ∧ r < next w) →
  ∃ w' mc',
    forEach (clone_entry this lv) ks w = (Ret tt, w') ∧
    extends lv w w' ∧
    objects w' !! lv = Some mc' ∧
    (∀ k, k ∉ ks → mc' !! k = mc !! k) ∧
    (∀ k r d, k ∈ ks → m !! k = Some r → records w !! r = Some d →
       ∃ c, mc' !! k = Some c ∧ (next w ≤ c)%nat ∧ records w' !! c = Some (clone_of d)).
Proof.
  induction ks as [|k0 ks IH]; intros w mc Hne Hm Hlv Hks.
  - exists w, mc. split; [done|]. split; [apply extends_refl|]. split; [done|].
    split; [done|]. intros k r d Hin. by apply elem_of_nil in Hin.
  - destruct (Hks k0) as (r0 & d0 & Hk0 & Hr0 & Hlt0); [left|].
    set (w1 := with_clone lv mc k0 d0 w).
    pose proof (with_clone_extends lv mc k0 d0 w) as Hext1. fold w1 in Hext1.
    assert (Hm1 : objects w1 !! container_values this = Some m).
    { by rewrite (ext_objects _ _ _ Hext1). }
    assert (Hlv1 : objects w1 !! lv = Some (<[k0 := next w]> mc)) by apply lookup_insert_eq.
    assert (Hks1 : ∀ k, k ∈ ks → ∃ r d, m !! k = Some r ∧ records w1 !! r = Some d ∧ r < next w1).
    { intros k Hin. destruct (Hks k) as (r & d & Hk & Hr & Hlt); [by right|].
      exists r, d. split; [done|]. split; [|simpl; lia].
      by rewrite (ext_records _ _ _ Hext1). }
    destruct (IH w1 _ Hne Hm1 Hlv1 Hks1) as (w' & mc' & Hrun & Hext & Hlv' & Hout & Hin').
    exists w', mc'. split; [|split; [|split; [|split]]].
    + cbn [forEach].
      by rewrite (bind_Ret _ _ _ _ _ (clone_entry_run _ _ _ _ _ _ _ _ Hm Hlv Hk0 Hr0)).
    + by eapply extends_trans.
    + done.
    + intros k Hk. apply not_elem_of_cons in Hk as [Hk0' Hk].
      rewrite (Hout k Hk). by apply lookup_insert_ne.
    + intros k r d Hin Hk Hr.
      assert (Hlt : r < next w).
      { destruct (Hks k Hin) as (r' & d' & Hk' & _ & Hlt). congruence. }
      destruct (decide (k ∈ ks)) as [Hin_ks|Hnot].
      * destruct (Hin' k r d Hin_ks Hk) as (c & Hc & Hle & Hrc).
        { by rewrite (ext_records _ _ _ Hext1). }
        exists c. split; [done|]. split; [simpl in Hle; lia | done].
      * apply elem_of_cons in Hin as [->|Hin]; [|done].
        assert (r = r0) as -> by congruence. assert (d = d0) as -> by congruence.
        exists (next w). split; [|split; [lia|]].
        -- rewrite (Hout k0 Hnot). apply lookup_insert_eq.
        -- rewrite (ext_records _ _ _ Hext) by (simpl; lia). apply lookup_insert_eq.
Qed.

(** [keys_where] on a mapping all of whose records exist: the keys whose
    record satisfies [p]; the store is only read. *)
Lemma keys_where_list (p : IConfiguredDependency → bool) (l : list (string * loc)) w :
  (∀ e, e ∈ l → is_Some (records w !! e.2)) →
  ∃ kept,
    mapM (λ e : string * loc,
            let! d := read_record e.2 in
            ret (if p d then [e.1] else [])) l w = (Ret kept, w) ∧
    ∀ k, k ∈ concat kept ↔
         ∃ r d, (k, r) ∈ l ∧ records w !! r = Some d ∧ p d = true.
Proof.
  induction l as [|[k0 r0] l IH]; intros Hall.
  - exists []. split; [done|]. intros k. split.
    + intros H. by apply elem_of_nil in H.
    + intros (r & d & H & _). by apply elem_of_nil in H.
  - destruct (Hall (k0, r0)) as (d0 & Hd0); [left|]. simpl in Hd0.
    destruct IH as (kept & Hrun & Hchar); [intros e He; apply Hall; by right|].
    exists ((if p d0 then [k0] else []) :: kept). split.
    + cbn [mapM]. unfold bind at 1. unfold bind at 1. simpl.
      rewrite (read_record_Some _ _ _ Hd0). simpl.
      unfold bind at 1. by rewrite Hrun.
    + intros k. cbn [concat]. rewrite elem_of_app, Hchar. split.
      * intros [Hk | (r & d & Hin & Hr & Hp)].
        -- destruct (p d0) eqn:Ep; [|by apply elem_of_nil in Hk].
           apply list_elem_of_singleton in Hk as ->.
           exists r0, d0. split; [left | done].
        -- exists r, d. split; [by right | done].
      * intros (r & d & Hin & Hr & Hp). apply elem_of_cons in Hin as [[= -> ->] | Hin].
        -- left. assert (d = d0) as -> by congruence. rewrite Hp. left.
        -- right. eauto.
Qed.

Lemma keys_where_run (p : IConfiguredDependency → bool) m w :
  (∀ k r, m !! k = Some r → is_Some (records w !! r)) →
  ∃ ks,
    keys_where p m w = (Ret ks, w) ∧
    ∀ k, k ∈ ks ↔ ∃ r d, m !! k = Some r ∧ records w !! r = Some d ∧ p d = true.
Proof.
  intros Hall.
  destruct (keys_where_list p (entries m) w) as (kept & Hrun & Hchar).
  { intros [k r] He. apply elem_of_map_to_list in He. by eapply Hall. }
  exists (concat kept). split.
  - unfold keys_where. by rewrite (bind_Ret _ _ _ _ _ Hrun).
  - intros k. rewrite Hchar. split.
    + intros (r & d & He & H). apply elem_of_map_to_list in He. eauto.
    + intros (r & d & He & H). apply elem_of_map_to_list in He. eauto.
Qed.

(** [createChildContainer] on a container whose records all exist: the
    child's parent is this container; its mapping binds exactly the keys
    that are unresolved here, each to a new record that is the clone of the
    one bound here; nothing that existed before is changed. *)
Lemma createChildContainer_run this provenance m w :
  allocated w →
  objects w !! container_values this = Some m →
  (∀ k r, m !! k = Some r → is_Some (records w !! r)) →
  ∃ w' mc,
    createChildContainer this provenance w =
      (Ret (Container (next w) (Some this) (Some provenance)), w') ∧
    extends (next w) w w' ∧
    objects w' !! next w = Some mc ∧
    (∀ k r d, m !! k = Some r → records w !! r = Some d → isResolved d = true →
       mc !! k = None) ∧
    (∀ k, m !! k = None → mc !! k = None) ∧
    (∀ k r d, m !! k = Some r → records w !! r = Some d → isResolved d = false →
       ∃ c, mc !! k = Some c ∧ (next w < c)%nat ∧ records w' !! c = Some (clone_of d)).
Proof.
  intros Hal Hm Hall.
  pose proof (allocated_object _ _ _ Hal Hm) as Hlt.
  set (w0 := bump (with_objects (insert (next w) ∅) w)).
  assert (Hext0 : extends (next w) w w0).
  { split; simpl; try done; [|lia]. intros o Ho. by rewrite lookup_insert_ne. }
  assert (Hm0 : objects w0 !! container_values this = Some m).
  { rewrite (ext_objects _ _ _ Hext0); [done | lia]. }
  destruct (keys_where_run (λ d, negb (isResolved d)) m w0) as (ks & Hkeys & Hchar).
  { intros k r Hk. simpl. by eapply Hall. }
  destruct (clone_entries_run this (next w) m ks w0 ∅) as (w' & mc & Hrun & Hext & Hlv & Hout & Hin).
  { lia. }
  { done. }
  { apply lookup_insert_eq. }
  { intros k Hk. apply Hchar in Hk as (r & d & Hk & Hr & _).
    exists r, d. split; [done|]. split; [done|]. simpl in *.
    pose proof (allocated_record _ _ _ Hal Hr). lia. }
  exists w', mc. split; [|split; [|split; [|split; [|split]]]].
  - unfold createChildContainer. unfold bind at 1. unfold new_object at 1. fold w0.
    rewrite (bind_Ret _ _ _ _ _ (read_object_Some _ _ _ Hm0)).
    rewrite (bind_Ret _ _ _ _ _ Hkeys).
    by rewrite (bind_Ret _ _ _ _ _ Hrun).
  - by eapply extends_trans.
  - done.
  - intros k r d Hk Hr Hres. rewrite Hout; [done|].
    intros Hin_ks. apply Hchar in Hin_ks as (r' & d' & Hk' & Hr' & Hp).
    simpl in Hr'. assert (d' = d) as -> by congruence. by rewrite Hres in Hp.
  - intros k Hk. rewrite Hout; [done|].
    intros Hin_ks. apply Hchar in Hin_ks as (r' & d' & Hk' & _). congruence.
  - intros k r d Hk Hr Hres.
    destruct (Hin k r d) as (c & Hc & Hle & Hrc); [|done|done|].
    + apply Hchar. exists r, d. by rewrite Hres.
    + exists c. split; [done|]. split; [simpl in Hle; lia | done].
Qed.





(** ** Building a container *)




(** ** Disposal *)

(** [destroy(key)] on a single record whose cached value is truthy: the
    hook of the value is called if it has one, and the cache is cleared. *)
Lemma destroy_truthy this K m r key factory v w :
  objects w !! container_values this = Some m →
  m !! K = Some r →
  records w !! r = Some (ConfiguredDependency key factory v) →
  truthy v = true →
  ∃ w1, call_dispose v w = (Ret tt, w1) ∧
        destroy this K w =
          (Ret tt, with_records (insert r (ConfiguredDependency key factory VUndefined)) w1).
Proof.
  intros Hm HK Hr Hv.
  assert (Hcall : ∃ w1, call_dispose v w = (Ret tt, w1) ∧ records w1 = records w).
  { unfold call_dispose. destruct v as [| | | | |id c args|]; try (by exists w).
    destruct (disposable c); [|by exists w].
    by exists (emit_event (Disposed id) w). }
  destruct Hcall as (w1 & Hcall & Hrec). exists w1. split; [done|].
  unfold destroy. rewrite (bind_Ret _ _ _ _ _ (read_object_Some _ _ _ Hm)). rewrite HK.
  rewrite (bind_Ret _ _ _ _ _ (read_record_Some _ _ _ Hr)). rewrite Hv.
  rewrite (bind_Ret _ _ _ _ _ Hcall).
  apply set_value_run with (old := v). by rewrite Hrec.
Qed.

(** [dispose()] on a container none of whose records is resolved does
    nothing. *)
Lemma dispose_nothing_resolved this m w :
  objects w !! container_values this = Some m →
  (∀ k r, m !! k = Some r → ∃ d, records w !! r = Some d ∧ isResolved d = false) →
  dispose this w = (Ret tt, w).
Proof.
  intros Hm Hall.
  destruct (keys_where_run isResolved m w) as (ks & Hkeys & Hchar).
  { intros k r Hk. destruct (Hall k r Hk) as (d & Hd & _). by exists d. }
  assert (ks = []) as ->.
  { destruct ks as [|k ks]; [done|]. exfalso.
    destruct (proj1 (Hchar k)) as (r & d & Hk & Hr & Hres); [left|].
    destruct (Hall k r Hk) as (d' & Hd' & Hno). congruence. }
  unfold dispose. rewrite (bind_Ret _ _ _ _ _ (read_object_Some _ _ _ Hm)).
  by rewrite (bind_Ret _ _ _ _ _ Hkeys).
Qed.

(** ** Where the code departs from its specification *)

(** C4 at the failing input.  The error of the factory reaches the caller
    as it was thrown, for both kinds of record, and the single record
    (location 1) stays unresolved; but the multi-binding record
    (location 2) reports [isResolved() = true] after the failed
    resolution: [resolved] is set before the entries are resolved. *)
Theorem failed_resolution_marks_array_resolved :
  (resolve_failing_single empty_world).1 = Throw (Error "NOPE NOPE NOPE") ∧
  isResolved <$> records (resolve_failing_single empty_world).2 !! 1 = Some false ∧
  (resolve_failing_array empty_world).1 = Throw (Error "NOPE NOPE NOPE") ∧
  records (resolve_failing_array empty_world).2 !! 2 = Some (ArrayDependency "two" true 1) ∧
  isResolved <$> records (resolve_failing_array empty_world).2 !! 2 = Some true.
Proof. repeat split; by vm_compute. Qed.

(** C5 at the failing inputs.  For a single record with a truthy value,
    [dispose()] runs the hook of the instance once and the next [get]
    constructs a second instance.  For a record whose cached value is the
    number 0, [dispose()] clears nothing: the factory has run once after
    the second [get].  For a multi-binding record, [dispose()] neither
    runs the hook of the entry's instance nor clears it: the second [get]
    returns the first instance. *)
Theorem dispose_skips_falsy_and_arrays :
  ((dispose_single empty_world).1 =
     Ret (VInstance 2 Connection [], VInstance 3 Connection []) ∧
   disposals 2 (dispose_single empty_world).2 = 1 ∧
   constructions "Connection" (dispose_single empty_world).2 = 2) ∧
  ((dispose_falsy empty_world).1 = Ret (VNumber 0, VNumber 0) ∧
   invocations "zero" (dispose_falsy empty_world).2 = 1) ∧
  ((dispose_array empty_world).1 =
     Ret (VArray [VInstance 4 Connection []], VArray [VInstance 4 Connection []]) ∧
   disposals 4 (dispose_array empty_world).2 = 0 ∧
   constructions "Connection" (dispose_array empty_world).2 = 1).
Proof. repeat split; by vm_compute. Qed.

(** C6 at the failing input.  With a single record the child and the
    parent each create their own instance (two calls of the factory).  With
    a multi-binding record the clone holds the array of the original: the
    instance created by the child's resolution is the one the parent
    returns, the factory having run once; and an entry appended on the
    parent's side after the fork is resolved by the child. *)
Theorem array_clone_shares_entries :
  ((fork_single empty_world).1 =
     Ret (VInstance 4 SampleService [VString "1234"],
          VInstance 5 SampleService [VString "1234"]) ∧
   invocations "sample" (fork_single empty_world).2 = 2) ∧
  ((fork_array empty_world).1 =
     Ret (VArray [VInstance 6 SampleService [VString "1234"]],
          VArray [VInstance 6 SampleService [VString "1234"]]) ∧
   invocations "sample" (fork_array empty_world).2 = 1) ∧
  (append_after_fork empty_world).1 = Ret (VArray [VString "policyA"; VString "policyB"]).
Proof. repeat split; by vm_compute. Qed.

(** * Further properties of the code *)

(** ** What resolution never touches *)

Lemma frame_get fuel this keys : preserves frame (get fuel this keys).
Proof.
  destruct keys as [key|ks]; simpl; [apply frame_getService|].
  destruct (_ && _); [|apply preserves_throw; apply _].
  apply preserves_bind; [apply _ | |intros vs; apply preserves_ret; apply _].
  apply preserves_mapM; [apply _|]. intros k. apply frame_getService.
Qed.

(** X1. Whatever [get] does (one key or a batch; a value, an error, or no
    end within the fuel), in the store it leaves every key/record mapping
    and every array of entries is as before, every record has the class,
    key and factory it had, no record has disappeared, and the trace has
    only grown: [get] neither registers nor removes nor rebinds
    anything. *)
Theorem get_keeps_registrations (fuel : nat) (this : ServiceContainer) (keys : get_keys)
    (w : world) :
  let w' := (get fuel this keys w).2 in
  objects w' = objects w ∧
  arrays w' = arrays w ∧
  (∀ r, shape <$> records w' !! r = shape <$> records w !! r) ∧
  (∀ r, is_Some (records w !! r) ↔ is_Some (records w' !! r)) ∧
  trace w `prefix_of` trace w'.
Proof.
  intros w'. assert (Hf : frame w w').
  { apply (frame_get fuel this keys w (get fuel this keys w).1). by destruct (get _ _ _ _). }
  destruct Hf as [Ho Ha Hs Hn Ht]. split; [done|]. split; [done|]. split; [done|].
  split; [|done]. intros r. specialize (Hs r).
  rewrite <- !fmap_is_Some with (f := shape). by rewrite Hs.
Qed.

(** ** Batch lookup *)

Lemma get_Keys fuel this ks :
  get fuel this (Keys ks) =
    if ((2 <=? length ks) && (length ks <=? 10))%nat then
      let! vs := mapM (_getService fuel this) ks in
      ret (VArray vs)
    else throw (Error "Unsupported overload").
Proof. reflexivity. Qed.

Lemma mapM_Throw {A B} (f : A → M B) xs1 x xs2 w ys w1 e w2 :
  in_turn f xs1 w ys w1 → f x w1 = (Throw e, w2) →
  mapM f (xs1 ++ x :: xs2) w = (Throw e, w2).
Proof.
  induction 1 as [w|x0 xs y ys w w0 w1 Hx _ IH]; intros Hthrow; simpl.
  - by rewrite (bind_Throw _ _ _ _ _ Hthrow).
  - rewrite (bind_Ret _ _ _ _ _ Hx). by rewrite (bind_Throw _ _ _ _ _ (IH Hthrow)).
Qed.

(** X2. [get(keys)] with an array of fewer than 2 or more than 10 keys (so
    also the empty array and a one-element array) throws the error
    "Unsupported overload" before any key is looked up: the store is left
    as it is, and no fuel is needed. *)
Theorem get_batch_out_of_range (fuel : nat) (this : ServiceContainer) (ks : list string)
    (w : world) :
  (length ks < 2 ∨ 10 < length ks)%nat →
  get fuel this (Keys ks) w = (Throw (Error "Unsupported overload"), w).
Proof.
  intros Hlen. rewrite get_Keys.
  destruct (Nat.leb_spec 2 (length ks)); destruct (Nat.leb_spec (length ks) 10);
    simpl; try done; lia.
Qed.

Lemma get_batch_out_of_range_witness :
  get 0 (Container 0 None None) (Keys ["sample"]) sample_world =
    (Throw (Error "Unsupported overload"), sample_world).
Proof.
  apply (get_batch_out_of_range 0 (Container 0 None None) ["sample"] sample_world).
  left. simpl. lia.
Defined.

(** X3. [get(keys)] with 2 to 10 keys resolves the keys one after the other
    in the given order, each as the single-key [get] does, from the store
    its predecessor left: when they all return, the batch returns their
    values in that order; when one of them throws, the batch throws that
    error from the store that key left, and the keys after it are not
    looked up. *)
Theorem get_batch_in_order (fuel : nat) (this : ServiceContainer) (w : world) :
  (∀ ks vs w', (2 ≤ length ks ≤ 10)%nat →
     in_turn (λ k, get fuel this (Key k)) ks w vs w' →
     get fuel this (Keys ks) w = (Ret (VArray vs), w')) ∧
  (∀ ks1 k ks2 vs w1 e w2, (2 ≤ length (ks1 ++ k :: ks2) ≤ 10)%nat →
     in_turn (λ k, get fuel this (Key k)) ks1 w vs w1 →
     get fuel this (Key k) w1 = (Throw e, w2) →
     get fuel this (Keys (ks1 ++ k :: ks2)) w = (Throw e, w2)).
Proof.
  split.
  - intros ks vs w' Hlen Hturn. rewrite get_Keys.
    destruct (Nat.leb_spec 2 (length ks)); [|lia].
    destruct (Nat.leb_spec (length ks) 10); [|lia]. simpl.
    by rewrite (bind_Ret _ _ _ _ _ (in_turn_mapM _ _ _ _ _ Hturn)).
  - intros ks1 k ks2 vs w1 e w2 Hlen Hturn Hthrow. rewrite get_Keys.
    destruct (Nat.leb_spec 2 (length (ks1 ++ k :: ks2))); [|lia].
    destruct (Nat.leb_spec (length (ks1 ++ k :: ks2)) 10); [|lia]. simpl.
    by rewrite (bind_Throw _ _ _ _ _ (mapM_Throw _ _ _ _ _ _ _ _ _ Hturn Hthrow)).
Qed.

Lemma get_batch_in_order_witness :
  get 3 (Container 0 None None) (Keys ["mail"; "sample"]) two_resolved_world =
    (Ret (VArray [VString "test@test.com"; VInstance 2 SampleService [VString "1234"]]),
     two_resolved_world) ∧
  get 3 (Container 0 None None) (Keys ["mail"; "nope"; "sample"]) two_resolved_world =
    (Throw (Error "Unrecognized service: nope"),
     emit_event (Logged (keys_of {[ "sample" := 1; "mail" := 3 ]})) two_resolved_world).
Proof.
  destruct (get_batch_in_order 3 (Container 0 None None) two_resolved_world) as [Hall Hfail].
  split.
  - apply Hall; [simpl; lia|].
    eapply in_turn_cons; [reflexivity|]. eapply in_turn_cons; [reflexivity|]. constructor.
  - apply (Hfail ["mail"] "nope" ["sample"] [VString "test@test.com"] two_resolved_world).
    + simpl; lia.
    + eapply in_turn_cons; [reflexivity|]. constructor.
    + reflexivity.
Defined.

(** ** Disposal of a whole container *)

Lemma destroyed_idem d : destroyed (destroyed d) = destroyed d.
Proof. destruct d as [k f v|]; simpl; [|done]. by destruct (truthy v) eqn:E; simpl; rewrite ?E. Qed.

Lemma destroyed_instance d key f id c args :
  destroyed d = ConfiguredDependency key f (VInstance id c args) →
  d = ConfiguredDependency key f (VInstance id c args).
Proof. destruct d as [k f' v|]; simpl; [|done]. by destruct (truthy v). Qed.

Lemma hook_events_quiet d : destroyed d = d → hook_events d = [].
Proof.
  destruct d as [k f v|]; simpl; [|done].
  by destruct v.
Qed.

Lemma after_destroy_quiet r d w :
  records w !! r = Some d → destroyed d = d → after_destroy r d w = w.
Proof.
  intros Hr Hq. unfold after_destroy. rewrite (hook_events_quiet _ Hq), Hq.
  rewrite insert_id by done. rewrite app_nil_r. by destruct w.
Qed.

(** [destroy(key)] on a bound key. *)
Lemma destroy_run this m k r d w :
  objects w !! container_values this = Some m →
  m !! k = Some r →
  records w !! r = Some d →
  destroy this k w = (Ret tt, after_destroy r d w).
Proof.
  intros Hm Hk Hr. unfold destroy.
  rewrite (bind_Ret _ _ _ _ _ (read_object_Some _ _ _ Hm)). rewrite Hk.
  rewrite (bind_Ret _ _ _ _ _ (read_record_Some _ _ _ Hr)).
  destruct d as [key f v|key b a].
  - destruct (truthy v) eqn:Ev.
    + unfold after_destroy. simpl. rewrite Ev.
      destruct v as [| | | | |id c args|]; simpl in *;
        try (unfold bind, ret, set_value, bind, read_record, write_record; simpl;
             rewrite Hr; simpl; unfold with_records; simpl; by rewrite app_nil_r).
      destruct (disposable c);
        unfold bind, ret, emit, set_value, bind, read_record, write_record; simpl;
        rewrite Hr; simpl; unfold with_records; simpl; by rewrite ?app_nil_r.
    + rewrite after_destroy_quiet; [done|done|]. simpl. by rewrite Ev.
  - by rewrite after_destroy_quiet.
Qed.

Lemma destroy_unbound this m k w :
  objects w !! container_values this = Some m →
  m !! k = None →
  destroy this k w = (Ret tt, w).
Proof.
  intros Hm Hk. unfold destroy.
  rewrite (bind_Ret _ _ _ _ _ (read_object_Some _ _ _ Hm)). by rewrite Hk.
Qed.

Lemma cleared_refl m w : cleared m w w.
Proof.
  split; try done; [by left|]. exists []. by rewrite app_nil_r.
Qed.

Lemma cleared_lookup m w w' r d :
  cleared m w w' → records w !! r = Some d →
  records w' !! r = Some d ∨ records w' !! r = Some (destroyed d).
Proof.
  intros Hc Hr. destruct (cleared_records _ _ _ Hc r) as [H|[_ H]]; rewrite H, Hr; auto.
Qed.

Lemma cleared_trans m w1 w2 w3 : cleared m w1 w2 → cleared m w2 w3 → cleared m w1 w3.
Proof.
  intros H12 H23. split.
  - rewrite (cleared_objects _ _ _ H23). apply H12.
  - rewrite (cleared_arrays _ _ _ H23). apply H12.
  - rewrite (cleared_next _ _ _ H23). apply H12.
  - intros r.
    destruct (cleared_records _ _ _ H23 r) as [E2|[Hk E2]];
      destruct (cleared_records _ _ _ H12 r) as [E1|[Hk' E1]]; rewrite E2, E1; auto.
    right. split; [done|]. destruct (records w1 !! r); simpl; [|done].
    by rewrite destroyed_idem.
  - destruct (cleared_trace _ _ _ H12) as (t1 & Ht1 & Hj1).
    destruct (cleared_trace _ _ _ H23) as (t2 & Ht2 & Hj2).
    exists (t1 ++ t2)%list. split; [by rewrite Ht2, Ht1, app_assoc|].
    apply Forall_app. split; [done|].
    eapply Forall_impl; [exact Hj2|].
    intros e (id & k & r & key & f & c & args & -> & Hk & Hr & Hc).
    exists id, k, r, key, f, c, args. split; [done|]. split; [done|]. split; [|done].
    destruct (cleared_records _ _ _ H12 r) as [E|[_ E]]; rewrite E in Hr; [done|].
    destruct (records w1 !! r) as [d|]; [|done]. injection Hr as Hr.
    by rewrite (destroyed_instance _ _ _ _ _ _ Hr).
Qed.

Lemma after_destroy_cleared m k r d w :
  m !! k = Some r → records w !! r = Some d → cleared m w (after_destroy r d w).
Proof.
  intros Hk Hr. split; simpl; try done.
  - intros r'. destruct (decide (r = r')) as [<-|Hne].
    + right. split; [by exists k|]. by rewrite lookup_insert_eq, Hr.
    + left. by rewrite lookup_insert_ne.
  - exists (hook_events d). split; [done|].
    destruct d as [key f v|]; simpl; [|done].
    destruct v as [| | | | |id c args|]; try done.
    destruct (disposable c) eqn:Ec; [|done].
    apply Forall_singleton. by exists id, k, r, key, f, c, args.
Qed.

(** The loop of [dispose]: every key of [ks] that is bound ends with its
    record destroyed, and the hook calls of that record are among the
    events [t] of the loop. *)
Lemma destroy_all this m ks : ∀ w,
  objects w !! container_values this = Some m →
  (∀ k r, m !! k = Some r → is_Some (records w !! r)) →
  ∃ w' t,
    forEach (destroy this) ks w = (Ret tt, w') ∧
    cleared m w w' ∧
    trace w' = (trace w ++ t)%list ∧
    ∀ k r d, k ∈ ks → m !! k = Some r → records w !! r = Some d →
      records w' !! r = Some (destroyed d) ∧ ∀ e, e ∈ hook_events d → e ∈ t.
Proof.
  induction ks as [|k0 ks IH]; intros w Hm Hall.
  - exists w, []. split; [done|]. split; [apply cleared_refl|].
    split; [by rewrite app_nil_r|]. intros k r d Hin. by apply elem_of_nil in Hin.
  - destruct (m !! k0) as [r0|] eqn:Hk0.
    + destruct (Hall k0 r0 Hk0) as (d0 & Hr0).
      pose proof (after_destroy_cleared m k0 r0 d0 w Hk0 Hr0) as Hc1.
      set (w1 := after_destroy r0 d0 w) in *.
      destruct (IH w1) as (w' & t & Hrun & Hc & Ht & Hks).
      { by rewrite (cleared_objects _ _ _ Hc1). }
      { intros k r Hk. destruct (Hall k r Hk) as (d & Hd).
        destruct (cleared_lookup _ _ _ _ _ Hc1 Hd) as [H|H]; by rewrite H. }
      assert (Hr0' : records w1 !! r0 = Some (destroyed d0)) by apply lookup_insert_eq.
      exists w', (hook_events d0 ++ t)%list. split; [|split; [|split]].
      * cbn [forEach].
        by rewrite (bind_Ret _ _ _ _ _ (destroy_run _ _ _ _ _ _ Hm Hk0 Hr0)).
      * by eapply cleared_trans.
      * rewrite Ht. simpl. by rewrite app_assoc.
      * intros k r d Hin Hk Hr.
        destruct (decide (r = r0)) as [->|Hne].
        -- assert (d = d0) as -> by congruence.
           split; [|intros e He; apply elem_of_app; by left].
           destruct (cleared_lookup _ _ _ _ _ Hc Hr0') as [H|H]; rewrite H; [done|].
           by rewrite destroyed_idem.
        -- assert (Hin_ks : k ∈ ks).
           { apply elem_of_cons in Hin as [->|Hin]; [congruence | done]. }
           assert (Hr1 : records w1 !! r = Some d).
           { unfold w1. simpl. by rewrite lookup_insert_ne. }
           destruct (Hks k r d Hin_ks Hk Hr1) as [Hrec Hhook].
           split; [done|]. intros e He. apply elem_of_app. right. by apply Hhook.
    + destruct (IH w Hm Hall) as (w' & t & Hrun & Hc & Ht & Hks).
      exists w', t. split; [|split; [done|split; [done|]]].
      * cbn [forEach]. by rewrite (bind_Ret _ _ _ _ _ (destroy_unbound _ _ _ _ Hm Hk0)).
      * intros k r d Hin Hk Hr.
        apply elem_of_cons in Hin as [->|Hin]; [congruence|]. by apply (Hks k r d).
Qed.

Lemma destroyed_unresolved d : isResolved d = false → destroyed d = d.
Proof.
  destruct d as [k f v|]; simpl; [|done]. by destruct v.
Qed.

(** [dispose()] on a container whose records all exist. *)
Lemma dispose_run this m w :
  objects w !! container_values this = Some m →
  (∀ k r, m !! k = Some r → is_Some (records w !! r)) →
  ∃ w' t,
    dispose this w = (Ret tt, w') ∧
    cleared m w w' ∧
    trace w' = (trace w ++ t)%list ∧
    ∀ k r d, m !! k = Some r → records w !! r = Some d →
      records w' !! r = Some (destroyed d) ∧ ∀ e, e ∈ hook_events d → e ∈ t.
Proof.
  intros Hm Hall.
  destruct (keys_where_run isResolved m w Hall) as (ks & Hkeys & Hchar).
  destruct (destroy_all this m ks w Hm Hall) as (w' & t & Hrun & Hc & Ht & Hks).
  exists w', t. split; [|split; [done|split; [done|]]].
  - unfold dispose. rewrite (bind_Ret _ _ _ _ _ (read_object_Some _ _ _ Hm)).
    by rewrite (bind_Ret _ _ _ _ _ Hkeys).
  - intros k r d Hk Hr. destruct (isResolved d) eqn:Hres.
    + apply (Hks k r d); [|done|done]. apply Hchar. by exists r, d.
    + pose proof (destroyed_unresolved _ Hres) as Hq. split.
      * destruct (cleared_lookup _ _ _ _ _ Hc Hr) as [H|H]; rewrite H; by rewrite ?Hq.
      * intros e He. rewrite (hook_events_quiet _ Hq) in He. by apply elem_of_nil in He.
Qed.

Lemma only_disposals_filter (p : event → bool) t :
  (∀ id, p (Disposed id) = false) →
  Forall (λ e, ∃ id, e = Disposed id) t → List.filter p t = [].
Proof.
  intros Hp. induction 1 as [|e t (id & ->) _ IH]; simpl; [done|]. by rewrite Hp.
Qed.

Lemma held_disposable_is_disposal w m t :
  Forall (held_disposable w m) t → Forall (λ e, ∃ id, e = Disposed id) t.
Proof.
  intros H. eapply Forall_impl; [exact H|].
  intros e (id & _ & _ & _ & _ & _ & _ & -> & _). by exists id.
Qed.

(** X4. [dispose()] on a container whose records all exist returns, and in the
    store it leaves:
    - every record held by the container's mapping is [destroyed]: a single
      record with a truthy cached value has lost it (key and factory kept),
      and every other record (unresolved, cached falsy value,
      multi-binding) is exactly as before;
    - every record not held by the mapping, every mapping and every array
      are as before;
    - the trace has grown only by calls of [dispose()] hooks, each on an
      instance that was the cached value of a record of the mapping, and
      the hook of every such instance has been called: no factory and no
      constructor has run. *)
Theorem dispose_clears (this : ServiceContainer) (m : gmap string loc) (w : world) :
  objects w !! container_values this = Some m →
  map_Forall (λ _ r, is_Some (records w !! r)) m →
  ∃ w',
    dispose this w = (Ret tt, w') ∧
    objects w' = objects w ∧
    arrays w' = arrays w ∧
    (∀ k r d, m !! k = Some r → records w !! r = Some d →
       records w' !! r = Some (destroyed d)) ∧
    (∀ r, (∀ k, m !! k ≠ Some r) → records w' !! r = records w !! r) ∧
    (∃ t, trace w' = (trace w ++ t)%list ∧ Forall (held_disposable w m) t ∧
          ∀ k r key f id c args, m !! k = Some r →
            records w !! r = Some (ConfiguredDependency key f (VInstance id c args)) →
            disposable c = true → Disposed id ∈ t) ∧
    (∀ name, invocations name w' = invocations name w) ∧
    (∀ c, constructions c w' = constructions c w).
Proof.
  intros Hm Hall.
  destruct (dispose_run this m w Hm) as (w' & t0 & Hrun & Hc & Ht0 & Hrec).
  { intros k r Hk. exact (Hall k r Hk). }
  destruct (cleared_trace _ _ _ Hc) as (t & Ht & Hheld).
  assert (t0 = t) as -> by (rewrite Ht0 in Ht; by apply app_inv_head in Ht).
  exists w'. split; [done|]. split; [apply Hc|]. split; [apply Hc|].
  split; [intros k r d Hk Hr; by apply (Hrec k r d)|]. split; [|split; [exists t|split]].
  - intros r Hout. destruct (cleared_records _ _ _ Hc r) as [H|[[k Hk] _]]; [done|].
    by destruct (Hout k).
  - split; [done|]. split; [done|].
    intros k r key f id c args Hk Hr Hd.
    destruct (Hrec k r _ Hk Hr) as [_ Hhook]. apply Hhook. simpl. rewrite Hd. left.
  - intros name. unfold invocations. rewrite Ht, filter_app_length.
    rewrite (only_disposals_filter (is_invoked name) t); [simpl; lia|done|].
    by eapply held_disposable_is_disposal.
  - intros c. unfold constructions. rewrite Ht, filter_app_length.
    rewrite (only_disposals_filter (is_constructed c) t); [simpl; lia|done|].
    by eapply held_disposable_is_disposal.
Qed.

Lemma dispose_clears_witness :
  ∃ w',
    dispose (Container 0 None None) disposable_world = (Ret tt, w') ∧
    objects w' = objects disposable_world ∧
    arrays w' = arrays disposable_world ∧
    (∀ k r d, ({[ "db" := 1; "count" := 2; "sample" := 3 ]} : gmap string nat) !! k = Some r →
       records disposable_world !! r = Some d →
       records w' !! r = Some (destroyed d)) ∧
    (∀ r, (∀ k, ({[ "db" := 1; "count" := 2; "sample" := 3 ]} : gmap string nat) !! k ≠ Some r) →
       records w' !! r = records disposable_world !! r) ∧
    (∃ t, trace w' = (trace disposable_world ++ t)%list ∧
          Forall (held_disposable disposable_world
                    {[ "db" := 1; "count" := 2; "sample" := 3 ]}) t ∧
          ∀ k r key f id c args,
            ({[ "db" := 1; "count" := 2; "sample" := 3 ]} : gmap string nat) !! k = Some r →
            records disposable_world !! r =
              Some (ConfiguredDependency key f (VInstance id c args)) →
            disposable c = true → Disposed id ∈ t) ∧
    (∀ name, invocations name w' = invocations name disposable_world) ∧
    (∀ c, constructions c w' = constructions c disposable_world).
Proof.
  apply (dispose_clears (Container 0 None None) {[ "db" := 1; "count" := 2; "sample" := 3 ]}
           disposable_world).
  - reflexivity.
  - apply (bool_decide_unpack _). by vm_compute.
Defined.

(** On [disposable_world]: the hook of the cached [Connection] is called
    once, its record is cleared, and the record that caches the number 0
    keeps its value. *)
Lemma dispose_disposable_world :
  trace (dispose (Container 0 None None) disposable_world).2 = [Disposed 4] ∧
  records (dispose (Container 0 None None) disposable_world).2 !! 1 =
    Some (ConfiguredDependency "db" (AutoWire Connection) VUndefined) ∧
  records (dispose (Container 0 None None) disposable_world).2 !! 2 =
    Some (ConfiguredDependency "count" zero_factory (VNumber 0)).
Proof. repeat split; by vm_compute. Qed.

(** X5. Disposing twice: the second [dispose()] returns and changes nothing,
    whatever the container holds (also records that the first one could
    not clear). *)
Theorem dispose_twice (this : ServiceContainer) (m : gmap string loc) (w : world) :
  objects w !! container_values this = Some m →
  map_Forall (λ _ r, is_Some (records w !! r)) m →
  ∃ w', dispose this w = (Ret tt, w') ∧ dispose this w' = (Ret tt, w').
Proof.
  intros Hm Hall.
  destruct (dispose_run this m w Hm) as (w' & t & Hrun & Hc & _ & Hrec0).
  { intros k r Hk. exact (Hall k r Hk). }
  assert (Hrec : ∀ k r d, m !! k = Some r → records w !! r = Some d →
                          records w' !! r = Some (destroyed d)).
  { intros k r d Hk Hr. by apply (Hrec0 k r d). }
  exists w'. split; [done|].
  assert (Hm' : objects w' !! container_values this = Some m).
  { by rewrite (cleared_objects _ _ _ Hc). }
  assert (Hall' : ∀ k r, m !! k = Some r → is_Some (records w' !! r)).
  { intros k r Hk. destruct (Hall k r Hk) as (d & Hd). by rewrite (Hrec k r d Hk Hd). }
  destruct (keys_where_run isResolved m w' Hall') as (ks & Hkeys & _).
  unfold dispose. rewrite (bind_Ret _ _ _ _ _ (read_object_Some _ _ _ Hm')).
  rewrite (bind_Ret _ _ _ _ _ Hkeys).
  clear Hkeys. induction ks as [|k ks IH]; [done|]. cbn [forEach].
  assert (Hk : destroy this k w' = (Ret tt, w')).
  { destruct (m !! k) as [r|] eqn:Ek; [|by eapply destroy_unbound].
    destruct (Hall k r Ek) as (d & Hd).
    rewrite (destroy_run _ _ _ _ _ _ Hm' Ek (Hrec k r d Ek Hd)).
    rewrite after_destroy_quiet; [done|by apply (Hrec k r d)|apply destroyed_idem]. }
  by rewrite (bind_Ret _ _ _ _ _ Hk).
Qed.

Lemma dispose_twice_witness :
  ∃ w', dispose (Container 0 None None) disposable_world = (Ret tt, w') ∧
        dispose (Container 0 None None) w' = (Ret tt, w').
Proof.
  apply (dispose_twice (Container 0 None None) {[ "db" := 1; "count" := 2; "sample" := 3 ]}
           disposable_world).
  - reflexivity.
  - apply (bool_decide_unpack _). by vm_compute.
Defined.

(** X6. After [dispose()], a key whose single record held a truthy cached
    value is unresolved again with the same factory: the next [get] of the
    key calls the factory again and caches what it returns. *)
Theorem dispose_then_resolve (this : ServiceContainer) (m : gmap string loc) (K : string)
    (r : loc) (key : string) (F : ValueFactoryDelegate) (v : val) (w : world) :
  objects w !! container_values this = Some m →
  map_Forall (λ _ r, is_Some (records w !! r)) m →
  m !! K = Some r →
  records w !! r = Some (ConfiguredDependency key F v) →
  truthy v = true →
  ∃ w',
    dispose this w = (Ret tt, w') ∧
    records w' !! r = Some (ConfiguredDependency key F VUndefined) ∧
    ∀ fuel v' w1, invoke fuel F this w' = (Ret v', w1) →
      ∃ w2, get (S (S fuel)) this (Key K) w' = (Ret v', w2) ∧
            records w2 !! r = Some (ConfiguredDependency key F v') ∧
            trace w2 = trace w1.
Proof.
  intros Hm Hall HK Hr Hv.
  destruct (dispose_run this m w Hm) as (w' & t & Hrun & Hc & _ & Hrec).
  { intros k r' Hk. exact (Hall k r' Hk). }
  destruct (Hrec K r _ HK Hr) as [Hr' _]. simpl in Hr'. rewrite Hv in Hr'.
  assert (Hm' : objects w' !! container_values this = Some m).
  { by rewrite (cleared_objects _ _ _ Hc). }
  exists w'. split; [done|]. split; [done|].
  intros fuel v' w1 Hi.
  exists (with_records (insert r (ConfiguredDependency key F v')) w1).
  split; [|split; [apply lookup_insert_eq | done]].
  rewrite (getService_bound _ _ _ _ _ _ Hm' HK). by apply resolveValue_first.
Qed.

Lemma dispose_then_resolve_witness :
  ∃ w',
    dispose (Container 0 None None) disposable_world = (Ret tt, w') ∧
    records w' !! 1 = Some (ConfiguredDependency "db" (AutoWire Connection) VUndefined) ∧
    ∀ fuel v' w1, invoke fuel (AutoWire Connection) (Container 0 None None) w' = (Ret v', w1) →
      ∃ w2, get (S (S fuel)) (Container 0 None None) (Key "db") w' = (Ret v', w2) ∧
            records w2 !! 1 = Some (ConfiguredDependency "db" (AutoWire Connection) v') ∧
            trace w2 = trace w1.
Proof.
  apply (dispose_then_resolve (Container 0 None None)
           {[ "db" := 1; "count" := 2; "sample" := 3 ]} "db" 1 "db" (AutoWire Connection)
           (VInstance 4 Connection []) disposable_world).
  - reflexivity.
  - apply (bool_decide_unpack _). by vm_compute.
  - reflexivity.
  - reflexivity.
  - reflexivity.
Defined.

(** ** Parent and child containers *)

(** X7. [createChildContainer] on a container whose records all exist returns
    a container whose parent is this one and whose mapping is a new
    object.  That mapping binds exactly the keys that are bound here to an
    unresolved record, each to a new record that is the [clone_of] the one
    bound here (for a multi-binding record: a record around the same
    array).  Every record, array and mapping that existed is as before,
    and the trace is unchanged: forking runs no factory. *)
Theorem fork_copies_unresolved (this : ServiceContainer) (provenance : string)
    (m : gmap string loc) (w : world) :
  allocated w →
  objects w !! container_values this = Some m →
  map_Forall (λ _ r, is_Some (records w !! r)) m →
  ∃ w' mc,
    createChildContainer this provenance w =
      (Ret (Container (next w) (Some this) (Some provenance)), w') ∧
    objects w' !! next w = Some mc ∧
    (∀ k, is_Some (mc !! k) ↔
          ∃ r d, m !! k = Some r ∧ records w !! r = Some d ∧ isResolved d = false) ∧
    (∀ k r d, m !! k = Some r → records w !! r = Some d → isResolved d = false →
       ∃ c, mc !! k = Some c ∧ (next w < c)%nat ∧ records w' !! c = Some (clone_of d)) ∧
    (∀ r, (r < next w)%nat → records w' !! r = records w !! r) ∧
    arrays w' = arrays w ∧
    (∀ o, o ≠ next w → objects w' !! o = objects w !! o) ∧
    trace w' = trace w.
Proof.
  intros Hal Hm Hall.
  destruct (createChildContainer_run this provenance m w Hal Hm)
    as (w' & mc & Hrun & Hext & Hmc & Hres & Habs & Hunres).
  { intros k r Hk. exact (Hall k r Hk). }
  exists w', mc. split; [done|]. split; [done|]. split; [|split; [done|]].
  - intros k. split.
    + intros Hsome. destruct (m !! k) as [r|] eqn:Hk.
      * destruct (Hall k r Hk) as (d & Hd). exists r, d. split; [done|]. split; [done|].
        destruct (isResolved d) eqn:E; [|done].
        rewrite (Hres k r d Hk Hd E) in Hsome. by destruct Hsome.
      * rewrite (Habs k Hk) in Hsome. by destruct Hsome.
    + intros (r & d & Hk & Hd & E). destruct (Hunres k r d Hk Hd E) as (c & -> & _). eauto.
  - split; [apply Hext|]. split; [apply Hext|]. split; [apply Hext | apply Hext].
Qed.

Lemma fork_copies_unresolved_witness :
  ∃ w' mc,
    createChildContainer (Container 0 None None) "test" disposable_world =
      (Ret (Container 5 (Some (Container 0 None None)) (Some "test")), w') ∧
    objects w' !! 5 = Some mc ∧
    (∀ k, is_Some (mc !! k) ↔
          ∃ r d, ({[ "db" := 1; "count" := 2; "sample" := 3 ]} : gmap string nat) !! k = Some r ∧
                 records disposable_world !! r = Some d ∧ isResolved d = false) ∧
    (∀ k r d, ({[ "db" := 1; "count" := 2; "sample" := 3 ]} : gmap string nat) !! k = Some r →
       records disposable_world !! r = Some d → isResolved d = false →
       ∃ c, mc !! k = Some c ∧ (5 < c)%nat ∧ records w' !! c = Some (clone_of d)) ∧
    (∀ r, (r < 5)%nat → records w' !! r = records disposable_world !! r) ∧
    arrays w' = arrays disposable_world ∧
    (∀ o, o ≠ 5 → objects w' !! o = objects disposable_world !! o) ∧
    trace w' = trace disposable_world.
Proof.
  apply (fork_copies_unresolved (Container 0 None None) "test"
           {[ "db" := 1; "count" := 2; "sample" := 3 ]} disposable_world).
  - split; [|split]; apply (bool_decide_unpack _); by vm_compute.
  - reflexivity.
  - apply (bool_decide_unpack _). by vm_compute.
Defined.



Lemma invoke_creates fuel name c args container w :
  body c = None →
  invoke (S fuel) (Delegate name (Creates c args)) container w =
    (Ret (VInstance (next w) c args), after_creates name c w).
Proof.
  intros Hb. rewrite invoke_S. unfold bind, emit, construct. simpl. by rewrite Hb.
Qed.

Lemma invocations_after_creates name c w :
  invocations name (after_creates name c w) = S (invocations name w).
Proof.
  unfold invocations. simpl. rewrite !filter_app_length. simpl.
  rewrite String.eqb_refl. simpl. lia.
Qed.

(** X9. After a fork, parent and child resolve an inherited key each for
    themselves.  For a key bound to an unresolved single record whose
    factory is a user delegate that constructs an object: when the parent
    resolves the key after the fork and the child after that, the child
    does not see the parent's instance; it calls the factory again and gets
    a different instance, and from then on each container returns its
    own. *)
Theorem fork_then_both_resolve (P : ServiceContainer) (provenance K : string)
    (m : gmap string loc) (r : loc) (key name : string) (c : Newable) (args : list val)
    (w : world) :
  allocated w →
  objects w !! container_values P = Some m →
  map_Forall (λ _ r', is_Some (records w !! r')) m →
  m !! K = Some r →
  records w !! r = Some (ConfiguredDependency key (Delegate name (Creates c args)) VUndefined) →
  body c = None →
  ∃ C w' w2 w3 id1 id2,
    createChildContainer P provenance w = (Ret C, w') ∧
    (∀ fuel, get (S (S (S fuel))) P (Key K) w' = (Ret (VInstance id1 c args), w2)) ∧
    (∀ fuel, get (S (S (S fuel))) C (Key K) w2 = (Ret (VInstance id2 c args), w3)) ∧
    id1 ≠ id2 ∧
    invocations name w3 = S (S (invocations name w)) ∧
    (∀ fuel, get (S (S (S fuel))) P (Key K) w3 = (Ret (VInstance id1 c args), w3)) ∧
    (∀ fuel, get (S (S (S fuel))) C (Key K) w3 = (Ret (VInstance id2 c args), w3)).
Proof.
  intros Hal Hm Hall HK Hr Hb.
  set (F := Delegate name (Creates c args)) in *.
  destruct (createChildContainer_run P provenance m w Hal Hm)
    as (w' & mc & Hrun & Hext & Hmc & _ & _ & Hunres).
  { intros k r' Hk. exact (Hall k r' Hk). }
  destruct (Hunres K r _ HK Hr eq_refl) as (c' & Hc' & Hlt' & Hrc'). simpl in Hrc'.
  pose proof (allocated_record _ _ _ Hal Hr) as Hlt.
  pose proof (allocated_object _ _ _ Hal Hm) as Hlt_o.
  set (C := Container (next w) (Some P) (Some provenance)) in *.
  assert (Hr' : records w' !! r = Some (ConfiguredDependency key F VUndefined)).
  { by rewrite (ext_records _ _ _ Hext). }
  assert (Hm' : objects w' !! container_values P = Some m).
  { rewrite (ext_objects _ _ _ Hext); [done | lia]. }
  set (v1 := VInstance (next w') c args).
  set (w2 := with_records (insert r (ConfiguredDependency key F v1)) (after_creates name c w')).
  set (v2 := VInstance (next w2) c args).
  set (w3 := with_records (insert c' (ConfiguredDependency key F v2)) (after_creates name c w2)).
  assert (Hm3 : objects w3 !! container_values P = Some m) by done.
  assert (Hmc3 : objects w3 !! container_values C = Some mc) by done.
  assert (Hr3 : records w3 !! r = Some (ConfiguredDependency key F v1)).
  { simpl. rewrite lookup_insert_ne by lia. apply lookup_insert_eq. }
  assert (Hc3 : records w3 !! c' = Some (ConfiguredDependency key F v2))
    by apply lookup_insert_eq.
  exists C, w', w2, w3, (next w'), (next w2).
  split; [done|]. split; [|split; [|split; [|split; [|split]]]].
  - intros fuel. rewrite (getService_bound _ _ _ _ _ _ Hm' HK).
    apply resolveValue_first; [done|]. by apply invoke_creates.
  - intros fuel.
    assert (Hmc2 : objects w2 !! container_values C = Some mc) by done.
    rewrite (getService_bound _ C _ _ _ _ Hmc2 Hc').
    apply resolveValue_first; [|by apply invoke_creates].
    simpl. rewrite lookup_insert_ne by lia. done.
  - simpl. lia.
  - unfold w3, w2. change (invocations name (with_records ?f ?x)) with (invocations name x).
    rewrite invocations_after_creates.
    change (invocations name (with_records ?f ?x)) with (invocations name x).
    rewrite invocations_after_creates. f_equal. f_equal.
    unfold invocations. by rewrite (ext_trace _ _ _ Hext).
  - intros fuel. rewrite (getService_bound _ _ _ _ _ _ Hm3 HK).
    by eapply resolveValue_cached.
  - intros fuel. rewrite (getService_bound _ C _ _ _ _ Hmc3 Hc').
    by eapply resolveValue_cached.
Qed.

Lemma fork_then_both_resolve_witness :
  ∃ C w' w2 w3 id1 id2,
    createChildContainer (Container 0 None None) "test" sample_world = (Ret C, w') ∧
    (∀ fuel, get (S (S (S fuel))) (Container 0 None None) (Key "sample") w' =
               (Ret (VInstance id1 SampleService [VString "1234"]), w2)) ∧
    (∀ fuel, get (S (S (S fuel))) C (Key "sample") w2 =
               (Ret (VInstance id2 SampleService [VString "1234"]), w3)) ∧
    id1 ≠ id2 ∧
    invocations "sample" w3 = S (S (invocations "sample" sample_world)) ∧
    (∀ fuel, get (S (S (S fuel))) (Container 0 None None) (Key "sample") w3 =
               (Ret (VInstance id1 SampleService [VString "1234"]), w3)) ∧
    (∀ fuel, get (S (S (S fuel))) C (Key "sample") w3 =
               (Ret (VInstance id2 SampleService [VString "1234"]), w3)).
Proof.
  apply (fork_then_both_resolve (Container 0 None None) "test" "sample" {[ "sample" := 1 ]}
           1 "sample" "sample" SampleService [VString "1234"] sample_world).
  - split; [|split]; apply (bool_decide_unpack _); by vm_compute.
  - reflexivity.
  - apply (bool_decide_unpack _). by vm_compute.
  - reflexivity.
  - reflexivity.
  - reflexivity.
Defined.

(** ** The collection's own [resolve] *)

Lemma frame_is_Some w w' r : frame w w' → is_Some (records w !! r) → is_Some (records w' !! r).
Proof.
  intros Hf Hs. pose proof (frame_shape _ _ Hf r) as H.
  rewrite <- fmap_is_Some with (f := shape). rewrite H. by rewrite fmap_is_Some.
Qed.



(** X11. [ServiceCollection.resolve(key)] for a key bound to an unresolved
    single record whose factory returns a truthy value [v]: the call
    returns [v], and the temporary container has been disposed before it
    does, so the collection's record is unresolved again (a container built
    afterwards calls the factory anew), and when [v] is an instance with a
    [dispose()] hook, that hook has already been called on the value
    handed out. *)
Theorem collection_resolve_leaves_no_cache (fuel : nat) (this : ServiceCollection)
    (K : string) (m : gmap string loc) (r : loc) (key : string) (F : ValueFactoryDelegate)
    (v : val) (w w1 : world) :
  objects w !! collection_values this = Some m →
  map_Forall (λ _ r, is_Some (records w !! r)) m →
  m !! K = Some r →
  records w !! r = Some (ConfiguredDependency key F VUndefined) →
  invoke fuel F (buildContainer this) w = (Ret v, w1) →
  truthy v = true →
  ∃ w',
    ServiceCollection_resolve (S (S fuel)) this K w = (Ret v, w') ∧
    records w' !! r = Some (ConfiguredDependency key F VUndefined) ∧
    objects w' = objects w ∧
    (∀ id c args, v = VInstance id c args → disposable c = true →
       Disposed id ∈ trace w').
Proof.
  intros Hm Hall HK Hr Hi Hv.
  set (w2 := with_records (insert r (ConfiguredDependency key F v)) w1).
  pose proof (frame_invoke _ _ _ _ _ _ Hi) as Hf.
  assert (Hget : get (S (S fuel)) (buildContainer this) (Key K) w = (Ret v, w2)).
  { rewrite (getService_bound _ (buildContainer this) _ _ _ _ Hm HK).
    by apply resolveValue_first. }
  assert (Hm2 : objects w2 !! container_values (buildContainer this) = Some m).
  { simpl. by rewrite (frame_objects _ _ Hf). }
  assert (Hr2 : records w2 !! r = Some (ConfiguredDependency key F v))
    by apply lookup_insert_eq.
  destruct (dispose_run (buildContainer this) m w2 Hm2) as (w' & t & Hrun & Hc & Ht & Hrec).
  { intros k r' Hk. simpl. destruct (decide (r = r')) as [<-|Hne].
    - by rewrite lookup_insert_eq.
    - rewrite lookup_insert_ne by done. eapply frame_is_Some; [done|]. exact (Hall k r' Hk). }
  destruct (Hrec K r _ HK Hr2) as [Hr' Hhook]. simpl in Hr'. rewrite Hv in Hr'.
  exists w'. split; [|split; [done|split]].
  - unfold ServiceCollection_resolve, try_finally. by rewrite Hget, Hrun.
  - rewrite (cleared_objects _ _ _ Hc). simpl. apply Hf.
  - intros id c args -> Hd. rewrite Ht. apply elem_of_app. right.
    apply Hhook. simpl. rewrite Hd. left.
Qed.

Lemma collection_resolve_leaves_no_cache_witness :
  ∃ w',
    ServiceCollection_resolve 3 {| collection_values := 0 |} "sample" sample_world =
      (Ret (VInstance 2 SampleService [VString "1234"]), w') ∧
    records w' !! 1 = Some (ConfiguredDependency "sample" sample_factory VUndefined) ∧
    objects w' = objects sample_world ∧
    (∀ id c args, VInstance 2 SampleService [VString "1234"] = VInstance id c args →
       disposable c = true → Disposed id ∈ trace w').
Proof.
  apply (collection_resolve_leaves_no_cache 1 {| collection_values := 0 |} "sample"
           {[ "sample" := 1 ]} 1 "sample" sample_factory
           (VInstance 2 SampleService [VString "1234"]) sample_world
           (invoke 1 sample_factory (Container 0 None None) sample_world).2).
  - reflexivity.
  - apply (bool_decide_unpack _). by vm_compute.
  - reflexivity.
  - reflexivity.
  - reflexivity.
  - reflexivity.
Defined.

(** ** Importing and including *)




Lemma include_run this (registry : IServiceRegistry) w services' w1 X' w2 :
  registry {| collection_values := next w |} (bump (with_objects (insert (next w) ∅) w))
    = (Ret services', w1) →
  import this services' w1 = (Ret X', w2) →
  include this registry w = (Ret X', w2).
Proof.
  intros Hreg Himp. cbv [include newServiceCollection bind new_object ret].
  by rewrite Hreg.
Qed.

(** X13. [include(registry)] runs the registry on a new, empty collection and
    imports the result.  So when the registry appends an entry with
    [addDependency] under a key that this collection binds to a
    multi-binding record, the collection afterwards binds the key to the
    registry's record, whose array holds the new entry only: the entries
    registered before are no longer reached through the collection.
    [importRegistry] with the same registry runs it on this collection
    itself and appends to the existing array. *)
Theorem include_replaces_multi_binding (this : ServiceCollection) (K : string)
    (m : gmap string loc) (r : loc) (key : string) (b : bool) (a : loc) (xs : list loc)
    (value : registrand) (w : world) :
  allocated w →
  objects w !! collection_values this = Some m →
  m !! K = Some r →
  records w !! r = Some (ArrayDependency key b a) →
  arrays w !! a = Some xs →
  let registry : IServiceRegistry := λ services, addDependency services K value in
  (∃ X' w' m' r' a' e,
     include this registry w = (Ret X', w') ∧
     objects w' !! collection_values X' = Some m' ∧
     m' !! K = Some r' ∧ r' ≠ r ∧
     (∀ K', K' ≠ K → m' !! K' = m !! K') ∧
     records w' !! r' = Some (ArrayDependency K false a') ∧
     arrays w' !! a' = Some [e] ∧
     records w' !! e = Some (newConfiguredDependency (entry_key K 0) value) ∧
     arrays w' !! a = Some xs) ∧
  (∃ w',
     importRegistry this registry w = (Ret this, w') ∧
     objects w' = objects w ∧
     arrays w' !! a = Some (xs ++ [next w])%list ∧
     records w' !! next w =
       Some (newConfiguredDependency (entry_key key (length xs)) value)).
Proof.
  intros Hal Hm HK Hr Ha registry.
  pose proof (allocated_object _ _ _ Hal Hm) as Hlt_o.
  pose proof (allocated_record _ _ _ Hal Hr) as Hlt_r.
  pose proof (allocated_array _ _ _ Hal Ha) as Hlt_a.
  split.
  - set (scratch := {| collection_values := next w |}).
    set (w0 := bump (with_objects (insert (next w) ∅) w)).
    assert (Hs0 : objects w0 !! collection_values scratch = Some ∅) by apply lookup_insert_eq.
    set (w1 := with_array_entry scratch K ∅ w0).
    assert (Hr1 : records w1 !! S (next w0) = Some (ArrayDependency K false (next w0)))
      by apply lookup_insert_eq.
    assert (Ha1 : arrays w1 !! next w0 = Some []) by apply lookup_insert_eq.
    set (d := newConfiguredDependency (entry_key K 0) value).
    set (w2 := appended (next w0) [] d w1).
    assert (Hreg : registry scratch w0 = (Ret scratch, w2)).
    { unfold registry, addDependency.
      rewrite (bind_Ret _ _ _ _ _ (array_entry_absent _ _ _ _ Hs0 (lookup_empty K))).
      by rewrite (bind_Ret _ _ _ _ _ (ArrayDependency_register_run _ _ _ _ _ value _ Hr1 Ha1)). }
    assert (Hm2 : objects w2 !! collection_values this = Some m).
    { simpl. rewrite !lookup_insert_ne; [done | lia | lia]. }
    assert (Hs2 : objects w2 !! collection_values scratch = Some (<[K := S (next w0)]> ∅))
      by apply lookup_insert_eq.
    set (m' := <[K := S (next w0)]> (∅ : gmap string nat) ∪ m).
    set (w3 := bump (with_objects (insert (next w2) m') w2)).
    exists {| collection_values := next w2 |}, w3, m', (S (next w0)), (next w0), (next w1).
    split; [|split; [|split; [|split; [|split; [|split; [|split; [|split]]]]]]].
    + apply (include_run _ _ _ scratch w2); [exact Hreg|]. unfold import.
      rewrite (bind_Ret _ _ _ _ _ (read_object_Some _ _ _ Hm2)).
      by rewrite (bind_Ret _ _ _ _ _ (read_object_Some _ _ _ Hs2)).
    + apply lookup_insert_eq.
    + apply lookup_union_Some_l, lookup_insert_eq.
    + simpl. lia.
    + intros K' Hne. unfold m'. rewrite lookup_union_r; [done|].
      rewrite lookup_insert_ne by done. apply lookup_empty.
    + simpl. rewrite lookup_insert_ne by lia. apply lookup_insert_eq.
    + apply lookup_insert_eq.
    + apply lookup_insert_eq.
    + simpl. rewrite !lookup_insert_ne; [done | lia | lia].
  - exists (appended a xs (newConfiguredDependency (entry_key key (length xs)) value) w).
    split; [|split; [done|split; apply lookup_insert_eq]].
    unfold importRegistry, registry, addDependency.
    rewrite (bind_Ret _ _ _ _ _ (array_entry_bound _ _ _ _ _ Hm HK)).
    by rewrite (bind_Ret _ _ _ _ _ (ArrayDependency_register_run _ _ _ _ _ value _ Hr Ha)).
Qed.

Lemma include_replaces_multi_binding_witness :
  (∃ X' w' m' r' a' e,
     include {| collection_values := 0 |} add_policy one_array_world = (Ret X', w') ∧
     objects w' !! collection_values X' = Some m' ∧
     m' !! "two" = Some r' ∧ r' ≠ 2 ∧
     (∀ K', K' ≠ "two" → m' !! K' = ({[ "two" := 2 ]} : gmap string nat) !! K') ∧
     records w' !! r' = Some (ArrayDependency "two" false a') ∧
     arrays w' !! a' = Some [e] ∧
     records w' !! e =
       Some (newConfiguredDependency (entry_key "two" 0) (Plain (VString "policyB"))) ∧
     arrays w' !! 1 = Some [3]) ∧
  (∃ w',
     importRegistry {| collection_values := 0 |} add_policy one_array_world =
       (Ret {| collection_values := 0 |}, w') ∧
     objects w' = objects one_array_world ∧
     arrays w' !! 1 = Some ([3] ++ [next one_array_world])%list ∧
     records w' !! next one_array_world =
       Some (newConfiguredDependency (entry_key "two" (length [3]))
               (Plain (VString "policyB")))).
Proof.
  apply (include_replaces_multi_binding {| collection_values := 0 |} "two" {[ "two" := 2 ]}
           2 "two" false 1 [3] (Plain (VString "policyB")) one_array_world
           one_array_world_allocated); reflexivity.
Defined.

(** ** Registered keys *)

Lemma isRegistered_run this K m w :
  objects w !! collection_values this = Some m →
  isRegistered this K w = (Ret (bool_decide (is_Some (m !! K))), w).
Proof.
  intros Hm. unfold isRegistered.
  by rewrite (bind_Ret _ _ _ _ _ (read_object_Some _ _ _ Hm)).
Qed.



(** ** Multi-binding records *)

Lemma mapM_same_world {A B} (f : A → M B) xs ys w :
  Forall2 (λ x y, f x w = (Ret y, w)) xs ys → mapM f xs w = (Ret ys, w).
Proof.
  induction 1 as [|x y xs ys Hx _ IH]; [done|].
  cbn [mapM]. rewrite (bind_Ret _ _ _ _ _ Hx). by rewrite (bind_Ret _ _ _ _ _ IH).
Qed.

(** Resolving a multi-binding record whose entries all hold a cached
    value. *)
Lemma resolve_cached_array fuel this r key b a xs vs w :
  records w !! r = Some (ArrayDependency key b a) →
  arrays w !! a = Some xs →
  entries_cached w xs vs →
  resolveValue (S (S fuel)) r this w =
    (Ret (VArray vs), with_records (insert r (ArrayDependency key true a)) w).
Proof.
  intros Hr Ha Hc. rewrite resolveValue_S.
  rewrite (bind_Ret _ _ _ _ _ (read_record_Some _ _ _ Hr)).
  set (w0 := with_records (insert r (ArrayDependency key true a)) w).
  assert (Hset : set_resolved r w = (Ret tt, w0)).
  { unfold set_resolved. by rewrite (bind_Ret _ _ _ _ _ (read_record_Some _ _ _ Hr)). }
  rewrite (bind_Ret _ _ _ _ _ Hset).
  assert (Ha0 : arrays w0 !! a = Some xs) by done.
  rewrite (bind_Ret _ _ _ _ _ (read_array_Some _ _ _ Ha0)).
  assert (Hall : Forall2 (λ x v, resolveValue (S fuel) x this w0 = (Ret v, w0)) xs vs).
  { eapply Forall2_impl; [exact Hc|]. intros x v (k & f & Hx & Hv).
    eapply resolveValue_cached; [|done]. simpl.
    rewrite lookup_insert_ne; [done|]. intros ->. congruence. }
  by rewrite (bind_Ret _ _ _ _ _ (mapM_same_world _ _ _ _ Hall)).
Qed.

(** X15. Registration order is resolution order.  A key bound to a
    multi-binding record whose entries hold the cached values [vs] (as
    entries registered from plain values do) resolves to the array [vs],
    in the order of the entries, and the only change in the store is that
    the record is marked resolved.  After [addDependency(K, v)] with one
    more plain value [v] on the collection the container was built from,
    the container resolves the key to [vs] followed by [v]. *)
Theorem multi_binding_order (this : ServiceCollection) (K : string) (m : gmap string loc)
    (r : loc) (key : string) (b : bool) (a : loc) (xs : list loc) (vs : list val)
    (w : world) :
  allocated w →
  objects w !! collection_values this = Some m →
  m !! K = Some r →
  records w !! r = Some (ArrayDependency key b a) →
  arrays w !! a = Some xs →
  entries_cached w xs vs →
  (∀ fuel, get (S (S (S fuel))) (buildContainer this) (Key K) w =
             (Ret (VArray vs), with_records (insert r (ArrayDependency key true a)) w)) ∧
  (∀ v, is_undefined v = false →
     ∃ w1, addDependency this K (Plain v) w = (Ret this, w1) ∧
           ∀ fuel, (get (S (S (S fuel))) (buildContainer this) (Key K) w1).1 =
                     Ret (VArray (vs ++ [v]))).
Proof.
  intros Hal Hm HK Hr Ha Hc. split.
  - intros fuel. rewrite (getService_bound _ (buildContainer this) _ _ _ _ Hm HK).
    by eapply resolve_cached_array.
  - intros v Hv.
    set (d := newConfiguredDependency (entry_key key (length xs)) (Plain v)).
    exists (appended a xs d w). split.
    + unfold addDependency.
      rewrite (bind_Ret _ _ _ _ _ (array_entry_bound _ _ _ _ _ Hm HK)).
      by rewrite (bind_Ret _ _ _ _ _ (ArrayDependency_register_run _ _ _ _ _ _ _ Hr Ha)).
    + intros fuel.
      destruct (appended_spec a xs d r key b w Hal Hr) as (Ho & Hr1 & Ha1 & Hnew).
      assert (Hm1 : objects (appended a xs d w) !! container_values (buildContainer this)
                    = Some m) by by rewrite Ho.
      rewrite (getService_bound _ (buildContainer this) _ _ _ _ Hm1 HK).
      rewrite (resolve_cached_array _ _ _ _ _ _ _ (vs ++ [v]) _ Hr1 Ha1); [done|].
      apply Forall2_app.
      * eapply Forall2_impl; [exact Hc|]. intros x v' (k & f & Hx & Hv').
        exists k, f. split; [|done]. simpl. rewrite lookup_insert_ne; [done|].
        pose proof (allocated_record _ _ _ Hal Hx). lia.
      * constructor; [|constructor]. by exists (entry_key key (length xs)), (Constant v).
Qed.

Lemma multi_binding_order_witness :
  (∀ fuel, get (S (S (S fuel))) (buildContainer {| collection_values := 0 |}) (Key "two")
             one_array_world =
             (Ret (VArray [VString "policyA"]),
              with_records (insert 2 (ArrayDependency "two" true 1)) one_array_world)) ∧
  (∀ v, is_undefined v = false →
     ∃ w1, addDependency {| collection_values := 0 |} "two" (Plain v) one_array_world =
             (Ret {| collection_values := 0 |}, w1) ∧
           ∀ fuel, (get (S (S (S fuel))) (buildContainer {| collection_values := 0 |})
                      (Key "two") w1).1 = Ret (VArray ([VString "policyA"] ++ [v]))).
Proof.
  apply (multi_binding_order {| collection_values := 0 |} "two" {[ "two" := 2 ]} 2 "two"
           false 1 [3] [VString "policyA"] one_array_world one_array_world_allocated);
    try reflexivity.
  constructor; [|constructor]. by exists "two-0", (Constant (VString "policyA")).
Defined.

Lemma entry_key_inj key (i j : nat) : entry_key key i = entry_key key j → i = j.
Proof.
  unfold entry_key. intros H.
  apply (inj (String.append key)), (inj (String.append "-")) in H.
  by apply (inj pretty) in H.
Qed.

(** X16. The synthetic keys of the entries never collide.  [key-i] and [key-j]
    are different for different positions; and a multi-binding record
    whose entries carry the keys [key-0], [key-1], ... in order still does
    after [addDependency] or [add] appended an entry, the new entry getting
    the key of the next position. *)
Theorem entry_keys_unique (this : ServiceCollection) (K : string) (m : gmap string loc)
    (r : loc) (key : string) (b : bool) (a : loc) (xs : list loc) (w : world) :
  allocated w →
  objects w !! collection_values this = Some m →
  m !! K = Some r →
  records w !! r = Some (ArrayDependency key b a) →
  arrays w !! a = Some xs →
  entries_keyed w key xs →
  (∀ i j, entry_key key i = entry_key key j → i = j) ∧
  (∀ value, ∃ w' xs',
     addDependency this K value w = (Ret this, w') ∧
     arrays w' !! a = Some xs' ∧ length xs' = S (length xs) ∧ entries_keyed w' key xs') ∧
  (∀ clazz, ∃ w' xs',
     add this K clazz w = (Ret this, w') ∧
     arrays w' !! a = Some xs' ∧ length xs' = S (length xs) ∧ entries_keyed w' key xs').
Proof.
  intros Hal Hm HK Hr Ha Hkeyed.
  assert (Hstep : ∀ f v,
    entries_keyed (appended a xs (ConfiguredDependency (entry_key key (length xs)) f v) w)
      key (xs ++ [next w])).
  { intros f v i x Hi. simpl.
    destruct (decide (i < length xs)%nat) as [Hlt|Hge].
    - rewrite lookup_app_l in Hi by done.
      destruct (Hkeyed i x Hi) as (f' & v' & Hx). exists f', v'.
      rewrite lookup_insert_ne; [done|].
      pose proof (allocated_record _ _ _ Hal Hx). lia.
    - rewrite lookup_app_r in Hi by lia.
      destruct (i - length xs)%nat as [|n] eqn:E; [|done]. injection Hi as <-.
      assert (i = length xs) as -> by lia. exists f, v. apply lookup_insert_eq. }
  split; [apply entry_key_inj|]. split.
  - intros value.
    exists (appended a xs (newConfiguredDependency (entry_key key (length xs)) value) w),
           (xs ++ [next w])%list.
    split; [|split; [apply lookup_insert_eq|split]].
    + unfold addDependency.
      rewrite (bind_Ret _ _ _ _ _ (array_entry_bound _ _ _ _ _ Hm HK)).
      by rewrite (bind_Ret _ _ _ _ _ (ArrayDependency_register_run _ _ _ _ _ _ _ Hr Ha)).
    + rewrite length_app. simpl. lia.
    + destruct value; apply Hstep.
  - intros clazz.
    exists (appended a xs (newConfiguredDependency (entry_key key (length xs))
                             (Factory (createAutoWireFactory clazz))) w),
           (xs ++ [next w])%list.
    split; [|split; [apply lookup_insert_eq|split]].
    + unfold add.
      rewrite (bind_Ret _ _ _ _ _ (array_entry_bound _ _ _ _ _ Hm HK)).
      by rewrite (bind_Ret _ _ _ _ _ (ArrayDependency_push_run _ _ _ _ _ _ _ Hr Ha)).
    + rewrite length_app. simpl. lia.
    + apply Hstep.
Qed.

Lemma entry_keys_unique_witness :
  (∀ i j, entry_key "two" i = entry_key "two" j → i = j) ∧
  (∀ value, ∃ w' xs',
     addDependency {| collection_values := 0 |} "two" value one_array_world =
       (Ret {| collection_values := 0 |}, w') ∧
     arrays w' !! 1 = Some xs' ∧ length xs' = S (length [3]) ∧
     entries_keyed w' "two" xs') ∧
  (∀ clazz, ∃ w' xs',
     add {| collection_values := 0 |} "two" clazz one_array_world =
       (Ret {| collection_values := 0 |}, w') ∧
     arrays w' !! 1 = Some xs' ∧ length xs' = S (length [3]) ∧
     entries_keyed w' "two" xs').
Proof.
  apply (entry_keys_unique {| collection_values := 0 |} "two" {[ "two" := 2 ]} 2 "two"
           false 1 [3] one_array_world one_array_world_allocated); try reflexivity.
  intros i x Hi. destruct i as [|i]; [|done]. injection Hi as <-.
  by exists (Constant (VString "policyA")), (VString "policyA").
Defined.

(** ** Replacing the value of a record *)

(** X17. [replaceValue] on a single record.  With a defined plain value the
    record resolves to that value at once, without any factory call.  With
    a factory on an unresolved record, the next resolution calls the new
    factory and caches its value.  With a factory on a record that is
    already resolved, the cached value stays: the record keeps resolving to
    the old value and the new factory is not called. *)
Theorem replaceValue_then_resolve (r : loc) (key : string) (F : ValueFactoryDelegate)
    (old : val) (w : world) :
  records w !! r = Some (ConfiguredDependency key F old) →
  (∀ v, is_undefined v = false →
     ∃ w', ConfiguredDependency_replaceValue r (Plain v) w = (Ret tt, w') ∧
           trace w' = trace w ∧
           ∀ fuel container, resolveValue (S fuel) r container w' = (Ret v, w')) ∧
  (∀ G, is_undefined old = true →
     ∃ w', ConfiguredDependency_replaceValue r (Factory G) w = (Ret tt, w') ∧
           ∀ fuel container v w1, invoke fuel G container w' = (Ret v, w1) →
             ∃ w2, resolveValue (S fuel) r container w' = (Ret v, w2) ∧
                   records w2 !! r = Some (ConfiguredDependency key G v) ∧
                   trace w2 = trace w1) ∧
  (∀ G, is_undefined old = false →
     ∃ w', ConfiguredDependency_replaceValue r (Factory G) w = (Ret tt, w') ∧
           records w' !! r = Some (ConfiguredDependency key G old) ∧
           ∀ fuel container, resolveValue (S fuel) r container w' = (Ret old, w')).
Proof.
  intros Hr.
  assert (Hrun : ∀ value, ConfiguredDependency_replaceValue r value w =
            (Ret tt, with_records (insert r (replaceValue (ConfiguredDependency key F old) value)) w)).
  { intros value. unfold ConfiguredDependency_replaceValue.
    by rewrite (bind_Ret _ _ _ _ _ (read_record_Some _ _ _ Hr)). }
  split; [|split].
  - intros v Hv. eexists. split; [apply Hrun|]. split; [done|].
    intros fuel container. eapply resolveValue_cached; [apply lookup_insert_eq | done].
  - intros G Hold. eexists. split; [apply Hrun|].
    intros fuel container v w1 Hi. destruct old; try discriminate.
    exists (with_records (insert r (ConfiguredDependency key G v)) w1).
    split; [|split; [apply lookup_insert_eq | done]].
    apply resolveValue_first; [apply lookup_insert_eq | done].
  - intros G Hold. eexists. split; [apply Hrun|]. split; [apply lookup_insert_eq|].
    intros fuel container. eapply resolveValue_cached; [apply lookup_insert_eq | done].
Qed.

Lemma replaceValue_then_resolve_witness :
  let old := VInstance 2 SampleService [VString "1234"] in
  let w := two_resolved_world in
  (∀ v, is_undefined v = false →
     ∃ w', ConfiguredDependency_replaceValue 1 (Plain v) w = (Ret tt, w') ∧
           trace w' = trace w ∧
           ∀ fuel container, resolveValue (S fuel) 1 container w' = (Ret v, w')) ∧
  (∀ G, is_undefined old = true →
     ∃ w', ConfiguredDependency_replaceValue 1 (Factory G) w = (Ret tt, w') ∧
           ∀ fuel container v w1, invoke fuel G container w' = (Ret v, w1) →
             ∃ w2, resolveValue (S fuel) 1 container w' = (Ret v, w2) ∧
                   records w2 !! 1 = Some (ConfiguredDependency "sample" G v) ∧
                   trace w2 = trace w1) ∧
  (∀ G, is_undefined old = false →
     ∃ w', ConfiguredDependency_replaceValue 1 (Factory G) w = (Ret tt, w') ∧
           records w' !! 1 = Some (ConfiguredDependency "sample" G old) ∧
           ∀ fuel container, resolveValue (S fuel) 1 container w' = (Ret old, w')).
Proof.
  apply (replaceValue_then_resolve 1 "sample" sample_factory
           (VInstance 2 SampleService [VString "1234"]) two_resolved_world).
  reflexivity.
Defined.

(** ** Stack and ServiceContainerStack *)

Lemma Stack_pop_push {A} (s : Stack A) (x : A) : Stack_pop (Stack_push s x) = (Some x, s).
Proof.
  destruct s as [l]. unfold Stack_pop, Stack_push. simpl.
  by rewrite last_snoc, removelast_last.
Qed.

Lemma Stack_peek_last {A} (s : Stack A) : Stack_peek s = last (storage s).
Proof.
  destruct s as [l]. unfold Stack_peek, Stack_size. simpl.
  destruct l as [|x l] using rev_ind; [done|].
  rewrite length_app, last_snoc. simpl.
  replace (length l + 1)%nat with (S (length l)) by lia.
  rewrite lookup_app_r by lia. by rewrite Nat.sub_diag.
Qed.

Lemma Stack_peek_push {A} (s : Stack A) (x : A) : Stack_peek (Stack_push s x) = Some x.
Proof. rewrite Stack_peek_last. unfold Stack_push. simpl. apply last_snoc. Qed.

(** X18. The stack is last-in first-out.  [pop] after [push] returns the pushed
    item and leaves the stack as it was before the push; [peek] returns
    what [pop] would return, without removing it; pushing the items [xs]
    and popping as many times returns them in reverse order and restores
    the stack; on the empty stack [pop] and [peek] return [undefined] and
    [pop] leaves it empty; [size] counts the pushes that were not
    popped. *)
Theorem Stack_lifo {A} (s : Stack A) :
  (∀ x, Stack_pop (Stack_push s x) = (Some x, s)) ∧
  (∀ x, Stack_peek (Stack_push s x) = Some x) ∧
  Stack_peek s = (Stack_pop s).1 ∧
  (∀ xs, Stack_pop_times (length xs) (foldl Stack_push s xs) = (Some <$> rev xs, s)) ∧
  Stack_pop (@newStack A) = (None, newStack) ∧
  Stack_peek (@newStack A) = None ∧
  (∀ x, Stack_size (Stack_push s x) = S (Stack_size s)) ∧
  Stack_size (Stack_pop s).2 = (Stack_size s - 1)%nat.
Proof.
  split; [apply Stack_pop_push|]. split; [|split; [apply Stack_peek_last|split; [|split;
    [done|split; [done|split]]]]].
  - apply Stack_peek_push.
  - intros xs. revert s. induction xs as [|x xs IH] using rev_ind; intros s; [done|].
    rewrite foldl_app, length_app, rev_app_distr.
    change (foldl Stack_push (foldl Stack_push s xs) [x])
      with (Stack_push (foldl Stack_push s xs) x).
    replace (length xs + length [x])%nat with (S (length xs)) by (simpl; lia).
    cbn [Stack_pop_times]. rewrite Stack_pop_push. by rewrite IH.
  - intros x. unfold Stack_size, Stack_push. simpl. rewrite length_app. simpl. lia.
  - unfold Stack_size, Stack_pop. simpl. destruct (storage s) as [|x l] using rev_ind; [done|].
    rewrite removelast_last, length_app. simpl. lia.
Qed.

(** X19. The container stack: [current()] is the container pushed last and not
    yet popped, the root after construction; [pop] undoes a [push], so
    after pushing any containers and popping as many times the root is
    current again.  The root itself can be popped: then, and only when the
    stack is empty, [current()] throws "No container found"; [pop] on the
    empty stack does nothing. *)
Theorem container_stack_scoping (root : ServiceContainer) (this : ServiceContainerStack) :
  ServiceContainerStack_current (newServiceContainerStack root) = Ret root ∧
  (∀ c, ServiceContainerStack_current (ServiceContainerStack_push this c) = Ret c) ∧
  (∀ c, ServiceContainerStack_pop (ServiceContainerStack_push this c) = this) ∧
  (∀ cs, ServiceContainerStack_current
           (Nat.iter (length cs) ServiceContainerStack_pop
              (foldl ServiceContainerStack_push (newServiceContainerStack root) cs))
         = Ret root) ∧
  ServiceContainerStack_current (ServiceContainerStack_pop (newServiceContainerStack root))
    = Throw (Error "No container found") ∧
  (ServiceContainerStack_current this = Throw (Error "No container found") ↔
   storage (stack this) = []) ∧
  (storage (stack this) = [] → ServiceContainerStack_pop this = this).
Proof.
  assert (Hpp : ∀ s c, ServiceContainerStack_pop (ServiceContainerStack_push s c) = s).
  { intros [s] c. unfold ServiceContainerStack_pop, ServiceContainerStack_push.
    cbn [stack]. by rewrite Stack_pop_push. }
  split; [done|]. split; [|split; [done|split; [|split; [done|split]]]].
  - intros c. unfold ServiceContainerStack_current, ServiceContainerStack_push.
    cbn [stack]. by rewrite Stack_peek_push.
  - intros cs.
    assert (H : ∀ s, Nat.iter (length cs) ServiceContainerStack_pop
                       (foldl ServiceContainerStack_push s cs) = s).
    { induction cs as [|c cs IH] using rev_ind; intros s; [done|].
      rewrite foldl_app, length_app.
      change (foldl ServiceContainerStack_push (foldl ServiceContainerStack_push s cs) [c])
        with (ServiceContainerStack_push (foldl ServiceContainerStack_push s cs) c).
      replace (length cs + length [c])%nat with (S (length cs)) by (simpl; lia).
      rewrite Nat.iter_succ_r, Hpp. apply IH. }
    by rewrite H.
  - destruct this as [[l]]. unfold ServiceContainerStack_current. rewrite Stack_peek_last.
    simpl. destruct l as [|x l] using rev_ind; [done|]. rewrite last_snoc. split; [done|].
    intros H. by apply app_eq_nil in H as [_ ?].
  - destruct this as [[l]]. simpl. by intros ->.
Qed.

(** ** Bootstrapping *)

Lemma createContainer_run fuel activate modules options w services w1 :
  configure_all modules (bootstrap_collection w) (bootstrap_world w) = (Ret services, w1) →
  createContainer fuel activate modules options w =
    ((if runActivators options then
        let! registered := isRegistered services BootstrappingServices_Activators in
        if registered then
          let! activators :=
            get fuel (buildContainer services) (Key BootstrappingServices_Activators) in
          run_activators activate activators
        else ret tt
      else ret tt) >>
     ret (buildContainer services)) w1.
Proof.
  intros Hmods. unfold createContainer, newServiceCollection.
  unfold bind at 1. unfold bind at 1. unfold new_object at 1. cbn [ret].
  fold (bootstrap_world w) (bootstrap_collection w).
  unfold bind at 1. by rewrite Hmods.
Qed.

Lemma configure_all_app modules1 modules2 services w services1 w1 :
  configure_all modules1 services w = (Ret services1, w1) →
  configure_all (modules1 ++ modules2) services w = configure_all modules2 services1 w1.
Proof.
  revert services w. induction modules1 as [|module rest IH]; intros services w; simpl.
  - by intros [= -> ->].
  - unfold bind. destruct (configureServices module services w) as [[s|e|] w0];
      try discriminate. apply IH.
Qed.

Lemma createContainer_skip fuel activate modules options services m w w1 :
  configure_all modules (bootstrap_collection w) (bootstrap_world w) = (Ret services, w1) →
  objects w1 !! collection_values services = Some m →
  runActivators options = false ∨ m !! BootstrappingServices_Activators = None →
  createContainer fuel activate modules options w = (Ret (buildContainer services), w1).
Proof.
  intros Hmods Hm Hgate.
  rewrite (createContainer_run _ _ _ _ _ _ _ Hmods).
  destruct (runActivators options); [|done].
  destruct Hgate as [?|Hno]; [done|].
  assert (Hskip : (let! registered := isRegistered services BootstrappingServices_Activators in
                   if registered then
                     let! activators :=
                       get fuel (buildContainer services)
                         (Key BootstrappingServices_Activators) in
                     run_activators activate activators
                   else ret tt) w1 = (Ret tt, w1)).
  { rewrite (bind_Ret _ _ _ _ _ (isRegistered_run _ _ _ _ Hm)). by rewrite Hno. }
  by rewrite (bind_Ret _ _ _ _ _ Hskip).
Qed.



Lemma forEach_in_turn {A} (f : A → M unit) xs w us w' :
  in_turn f xs w us w' → forEach f xs w = (Ret tt, w').
Proof.
  induction 1 as [|x xs [] us w w0 w4 Hx _ IH]; [done|].
  cbn [forEach]. by rewrite (bind_Ret _ _ _ _ _ Hx).
Qed.

(** X21. The activators are resolved once and run in the order in which they
    were registered.  When [runActivators] is true and the modules have
    bound "activators", and the [get] of that key on the new container
    returns the array [xs] of a multi-binding, then [createContainer] calls
    [activate()] on the elements of [xs] one after the other from the
    store that [get] left, and returns the container when they all return;
    an empty array is skipped.  The values that [get] cached stay cached
    in the container that is returned. *)
Theorem createContainer_runs_activators (fuel : nat) (activate : val → M unit)
    (modules : list IServiceModule) (services : ServiceCollection)
    (m : gmap string loc) (r : loc) (xs : list val) (w w1 w2 w3 : world) :
  configure_all modules (bootstrap_collection w) (bootstrap_world w) = (Ret services, w1) →
  objects w1 !! collection_values services = Some m →
  m !! BootstrappingServices_Activators = Some r →
  get fuel (buildContainer services) (Key BootstrappingServices_Activators) w1
    = (Ret (VArray xs), w2) →
  in_turn activate xs w2 (replicate (length xs) tt) w3 →
  createContainer fuel activate modules defaultOptions w = (Ret (buildContainer services), w3).
Proof.
  intros Hmods Hm Hr Hget Hact.
  rewrite (createContainer_run _ _ _ _ _ _ _ Hmods). simpl runActivators. cbv iota.
  assert (Hrun : run_activators activate (VArray xs) w2 = (Ret tt, w3)).
  { unfold run_activators. destruct xs as [|x xs].
    - inversion Hact; by subst.
    - by apply (forEach_in_turn _ _ _ _ _ Hact). }
  assert (Hgate : (let! registered := isRegistered services BootstrappingServices_Activators in
                   if registered then
                     let! activators :=
                       get fuel (buildContainer services) (Key BootstrappingServices_Activators) in
                     run_activators activate activators
                   else ret tt) w1 = (Ret tt, w3)).
  { rewrite (bind_Ret _ _ _ _ _ (isRegistered_run _ _ _ _ Hm)). rewrite Hr.
    rewrite bool_decide_eq_true_2 by eauto. by rewrite (bind_Ret _ _ _ _ _ Hget). }
  by rewrite (bind_Ret _ _ _ _ _ Hgate).
Qed.

Lemma createContainer_runs_activators_witness :
  createContainer 10 record_activation [TestModule] defaultOptions empty_world =
    (Ret (buildContainer (bootstrap_collection empty_world)),
     (forEach record_activation TestModule_activators
        (get 10 (buildContainer (bootstrap_collection empty_world))
           (Key BootstrappingServices_Activators)
           (configure_all [TestModule] (bootstrap_collection empty_world)
              (bootstrap_world empty_world)).2).2).2).
Proof.
  apply (createContainer_runs_activators 10 record_activation [TestModule]
           (bootstrap_collection empty_world)
           {[ "two" := 2; "one" := 5; "activators" := 7 ]} 7 TestModule_activators
           empty_world
           (configure_all [TestModule] (bootstrap_collection empty_world)
              (bootstrap_world empty_world)).2
           (get 10 (buildContainer (bootstrap_collection empty_world))
              (Key BootstrappingServices_Activators)
              (configure_all [TestModule] (bootstrap_collection empty_world)
                 (bootstrap_world empty_world)).2).2).
  - reflexivity.
  - reflexivity.
  - reflexivity.
  - reflexivity.
  - eapply in_turn_cons; [reflexivity|]. apply in_turn_nil.
Defined.

(** The bootstrap of the test 'resolve more than once': the service is
    created, the activator is constructed from the service and the two
    policies and activated once. *)
Lemma createContainer_TestModule :
  trace (createContainer 10 record_activation [TestModule] defaultOptions empty_world).2 =
    [Invoked "one"; Constructed "StubActivator" 9; Invoked "activate 9"].
Proof. by vm_compute. Qed.

(** X22. Modules are applied in order to one collection, so the last
    registration of a key wins: when the last module registers the plain
    defined value [v] under [K] (and no activators are run), the container
    that [createContainer] returns resolves [K] to [v], whatever the
    modules before it registered under [K]. *)
Theorem createContainer_last_module_wins (fuel : nat) (activate : val → M unit)
    (modules : list IServiceModule) (options : BootstrapOptions) (K : string) (v : val)
    (services : ServiceCollection) (m : gmap string loc) (w w1 : world) :
  configure_all modules (bootstrap_collection w) (bootstrap_world w) = (Ret services, w1) →
  objects w1 !! collection_values services = Some m →
  runActivators options = false ∨
    (m !! BootstrappingServices_Activators = None ∧ K ≠ BootstrappingServices_Activators) →
  is_undefined v = false →
  ∃ w2,
    createContainer fuel activate (modules ++ [settings_module K v]) options w =
      (Ret (buildContainer services), w2) ∧
    ∀ n, get (S (S n)) (buildContainer services) (Key K) w2 = (Ret v, w2).
Proof.
  intros Hmods Hm Hgate Hv.
  set (w2 := registered services K (Plain v) m w1).
  assert (Hm2 : objects w2 !! collection_values services = Some (<[K := next w1]> m))
    by apply lookup_insert_eq.
  assert (Hmods2 : configure_all (modules ++ [settings_module K v]) (bootstrap_collection w)
                     (bootstrap_world w) = (Ret services, w2)).
  { rewrite (configure_all_app _ _ _ _ _ _ Hmods). cbn [configure_all].
    assert (Hreg : configureServices (settings_module K v) services w1 = (Ret services, w2))
      by by apply register_run.
    by rewrite (bind_Ret _ _ _ _ _ Hreg). }
  exists w2. split.
  - apply (createContainer_skip _ _ _ _ _ _ _ _ Hmods2 Hm2).
    destruct Hgate as [?|[Hno Hne]]; [by left|]. right.
    by rewrite lookup_insert_ne.
  - intros n.
    rewrite (getService_bound _ (buildContainer services) _ _ (next w1) _ Hm2);
      [|apply lookup_insert_eq].
    eapply resolveValue_cached; [apply lookup_insert_eq | done].
Qed.

Lemma createContainer_last_module_wins_witness :
  ∃ w2,
    createContainer 5 record_activation
      ([settings_module "url" (VString "http://first")] ++
       [settings_module "url" (VString "http://second")]) defaultOptions empty_world =
      (Ret (buildContainer (bootstrap_collection empty_world)), w2) ∧
    ∀ n, get (S (S n)) (buildContainer (bootstrap_collection empty_world)) (Key "url") w2 =
           (Ret (VString "http://second"), w2).
Proof.
  apply (createContainer_last_module_wins 5 record_activation
           [settings_module "url" (VString "http://first")] defaultOptions "url"
           (VString "http://second") (bootstrap_collection empty_world) {[ "url" := 1 ]}
           empty_world
           (configure_all [settings_module "url" (VString "http://first")]
              (bootstrap_collection empty_world) (bootstrap_world empty_world)).2).
  - reflexivity.
  - reflexivity.
  - right. split; [reflexivity | discriminate].
  - reflexivity.
Defined.

(** ** Lazy values and the interaction context *)

(** X23. A [Lazy] runs its factory when [value] is read first, keeps what the
    factory returned and hands it out again without running the factory,
    until [reset()]: after a reset the next read runs the factory again.
    A factory that returns [undefined] is run again on every read; a
    factory that throws leaves nothing behind but its effects on the
    store. *)
Theorem Lazy_caches {A} `{Undefinable A} (this : Lazy A) (a : A) (w w1 : world) :
  Lazy_isValueCreated this = false →
  factory this w = (Ret a, w1) →
  let this' := {| factory := factory this; _value := Some a |} in
  Lazy_value this w = (Ret (a, this'), w1) ∧
  (typeof_undefined a = false →
     Lazy_isValueCreated this' = true ∧ ∀ w', Lazy_value this' w' = (Ret (a, this'), w')) ∧
  (typeof_undefined a = true →
     ∀ w', Lazy_value this' w' =
           (let! a' := factory this in
            ret (a', {| factory := factory this; _value := Some a' |})) w') ∧
  (∀ w', Lazy_value (Lazy_reset this') w' =
         (let! a' := factory this in
          ret (a', {| factory := factory this; _value := Some a' |})) w') ∧
  (∀ e w0 w2, factory this w0 = (Throw e, w2) → Lazy_value this w0 = (Throw e, w2)).
Proof.
  intros Hnot Hf this'.
  assert (Hrun : ∀ w0, Lazy_value this w0 =
            (let! a' := factory this in
             ret (a', {| factory := factory this; _value := Some a' |})) w0).
  { intros w0. unfold Lazy_value. destruct (_value this) eqn:E; [|done]. by rewrite Hnot. }
  split; [|split; [|split; [|split]]].
  - rewrite Hrun. by rewrite (bind_Ret _ _ _ _ _ Hf).
  - intros Ha. unfold Lazy_value, Lazy_isValueCreated. simpl. by rewrite Ha.
  - intros Ha w'. unfold Lazy_value, Lazy_isValueCreated. simpl. by rewrite Ha.
  - done.
  - intros e w0 w2 He. rewrite Hrun. by rewrite (bind_Throw _ _ _ _ _ He).
Qed.

Lemma Lazy_caches_witness :
  let this := newLazy (invoke 1 sample_factory (Container 0 None None)) in
  let a := VInstance 2 SampleService [VString "1234"] in
  let this' := {| factory := factory this; _value := Some a |} in
  Lazy_value this sample_world =
    (Ret (a, this'), (invoke 1 sample_factory (Container 0 None None) sample_world).2) ∧
  (typeof_undefined a = false →
     Lazy_isValueCreated this' = true ∧ ∀ w', Lazy_value this' w' = (Ret (a, this'), w')) ∧
  (typeof_undefined a = true →
     ∀ w', Lazy_value this' w' =
           (let! a' := factory this in
            ret (a', {| factory := factory this; _value := Some a' |})) w') ∧
  (∀ w', Lazy_value (Lazy_reset this') w' =
         (let! a' := factory this in
          ret (a', {| factory := factory this; _value := Some a' |})) w') ∧
  (∀ e w0 w2, factory this w0 = (Throw e, w2) → Lazy_value this w0 = (Throw e, w2)).
Proof.
  intros this a this'.
  apply (Lazy_caches this a sample_world
           (invoke 1 sample_factory (Container 0 None None) sample_world).2); reflexivity.
Defined.

(** Auto-wiring a class all of whose injected keys are bound to single
    records with a defined cached value: the constructor receives the
    cached values, in the reverse of the recorded order, and nothing but
    the construction happens. *)
Lemma autowire_cached fuel constructor this m w :
  objects w !! container_values this = Some m →
  Forall (λ e, bound_cached w m (dependencyKey e)) (getDependencyMetadata constructor) →
  body constructor = None →
  resolve (S (S (S fuel))) this constructor w =
    (Ret (VInstance (next w) constructor
            ((λ e, cached_value w m (dependencyKey e)) <$> rev (getDependencyMetadata constructor))),
     after_construct constructor w).
Proof.
  intros Hm Hall Hb. unfold resolve, createAutoWireFactory. rewrite invoke_S.
  assert (Hconstruct : ∀ params, construct constructor params w =
            (Ret (VInstance (next w) constructor params), after_construct constructor w)).
  { intros params. unfold construct. by rewrite Hb. }
  destruct (getDependencyMetadata constructor) as [|e0 rest] eqn:E; [apply Hconstruct|].
  rewrite <- E in *.
  assert (Hnz : (length (getDependencyMetadata constructor) =? 0)%nat = false) by by rewrite E.
  rewrite Hnz.
  assert (Hget : Forall2 (λ e v, _getService (S (S fuel)) this (dependencyKey e) w = (Ret v, w))
            (rev (getDependencyMetadata constructor))
            ((λ e, cached_value w m (dependencyKey e)) <$> rev (getDependencyMetadata constructor))).
  { apply Forall2_fmap_r, Forall_Forall2_diag.
    apply Forall_forall. intros e He. apply (proj1 (elem_of_rev _ _)) in He.
    destruct (proj1 (Forall_forall _ _) Hall e He) as (r & k & f & v & Hk & Hr & Hv).
    rewrite <- get_Key, (getService_bound _ _ _ _ _ _ Hm Hk).
    unfold cached_value, compose. rewrite Hk, Hr. by eapply resolveValue_cached. }
  rewrite (bind_Ret _ _ _ _ _ (mapM_same_world _ _ _ _ Hget)). apply Hconstruct.
Qed.

(** X24. The interaction context, for a class whose parameters are all marked
    (entries recorded for the parameters [n-1] down to [0]) over a
    collection that binds every injected key to a single record with a
    defined cached value (a registered stand-in).  On a context that has
    built nothing yet:
    - [classUnderTest] builds the container from the collection, constructs
      the class once with the stand-ins, and the argument at the position
      of each marked parameter is the value that [mockFor] of its key
      returns;
    - read again, [classUnderTest] returns the same instance and constructs
      nothing, and [mockFor] leaves the context and the store as they are;
    - after [services] was read, [classUnderTest] constructs the class
      again: another instance, with the same arguments. *)
Theorem interaction_context_injects_mocks (fuel : nat) (services : ServiceCollection)
    (constructor : Newable) (m : gmap string loc) (w : world) :
  objects w !! collection_values services = Some m →
  Forall (λ e, bound_cached w m (dependencyKey e)) (getDependencyMetadata constructor) →
  recorded_descending (getDependencyMetadata constructor) →
  body constructor = None →
  let this := newInteractionContext services constructor in
  let args := (λ e, cached_value w m (dependencyKey e)) <$> rev (getDependencyMetadata constructor) in
  let instance := VInstance (next w) constructor args in
  let w' := after_construct constructor w in
  ∃ this',
    InteractionContext_classUnderTest (S (S (S fuel))) this w = (Ret (instance, this'), w') ∧
    (∀ e, e ∈ getDependencyMetadata constructor →
       ∃ v, args !! parameterIndex e = Some v ∧
            InteractionContext_mockFor (S (S fuel)) this' (dependencyKey e) w' =
              (Ret (v, this'), w')) ∧
    (∀ n w'', InteractionContext_classUnderTest n this' w'' = (Ret (instance, this'), w'')) ∧
    (∃ this'',
       InteractionContext_classUnderTest (S (S (S fuel)))
         (InteractionContext_services this').2 w' =
         (Ret (VInstance (next w') constructor args, this''), after_construct constructor w') ∧
       next w' ≠ next w).
Proof.
  intros Hm Hall Hd Hb this args instance w'.
  set (c := buildContainer services).
  set (this' := {| _services := services; _constructor := constructor;
                   _container := Some c; _classUnderTest := Some instance |}).
  assert (Hm' : objects w' !! container_values c = Some m) by done.
  assert (Hall' : Forall (λ e, bound_cached w' m (dependencyKey e))
                    (getDependencyMetadata constructor)) by done.
  assert (Hargs' : (λ e, cached_value w' m (dependencyKey e)) <$>
                     rev (getDependencyMetadata constructor) = args) by done.
  exists this'. split; [|split; [|split]].
  - unfold InteractionContext_classUnderTest, InteractionContext_construct. simpl.
    by rewrite (bind_Ret _ _ _ _ _ (autowire_cached fuel constructor c m w Hm Hall Hb)).
  - intros e He.
    destruct (proj1 (Forall_forall _ _) Hall e He) as (r & k & f & v & Hk & Hr & Hv).
    exists v. split.
    + apply (proj2 (elem_of_rev _ _)), list_elem_of_lookup in He as (i & Hi).
      rewrite (recorded_descending_position _ _ _ Hd Hi).
      unfold args. rewrite list_lookup_fmap, Hi. simpl.
      unfold cached_value. by rewrite Hk, Hr.
    + unfold InteractionContext_mockFor. simpl.
      assert (Hget : get (S (S fuel)) c (Key (dependencyKey e)) w' = (Ret v, w')).
      { rewrite (getService_bound _ _ _ _ _ _ Hm' Hk). by eapply resolveValue_cached. }
      by rewrite (bind_Ret _ _ _ _ _ Hget).
  - done.
  - eexists. split; [|simpl; lia].
    unfold InteractionContext_classUnderTest, InteractionContext_construct. simpl.
    rewrite (bind_Ret _ _ _ _ _ (autowire_cached fuel constructor c m w' Hm' Hall' Hb)).
    by rewrite Hargs'.
Qed.

Lemma interaction_context_injects_mocks_witness :
  let this := newInteractionContext {| collection_values := 0 |} StubActivator in
  let args := (λ e, cached_value activator_world {[ "one" := 1; "two" := 2 ]} (dependencyKey e))
                <$> rev (getDependencyMetadata StubActivator) in
  let instance := VInstance (next activator_world) StubActivator args in
  let w' := after_construct StubActivator activator_world in
  ∃ this',
    InteractionContext_classUnderTest 3 this activator_world = (Ret (instance, this'), w') ∧
    (∀ e, e ∈ getDependencyMetadata StubActivator →
       ∃ v, args !! parameterIndex e = Some v ∧
            InteractionContext_mockFor 2 this' (dependencyKey e) w' = (Ret (v, this'), w')) ∧
    (∀ n w'', InteractionContext_classUnderTest n this' w'' = (Ret (instance, this'), w'')) ∧
    (∃ this'',
       InteractionContext_classUnderTest 3 (InteractionContext_services this').2 w' =
         (Ret (VInstance (next w') StubActivator args, this''),
          after_construct StubActivator w') ∧
       next w' ≠ next activator_world).
Proof.
  apply (interaction_context_injects_mocks 0 {| collection_values := 0 |} StubActivator
           {[ "one" := 1; "two" := 2 ]} activator_world).
  - reflexivity.
  - repeat constructor.
    + by exists 2, "two", (Constant (VString "policies")), (VString "policies").
    + by exists 1, "one", (Constant (VString "service")), (VString "service").
  - reflexivity.
  - reflexivity.
Defined.
